(** * The sliding puzzle of [game.py] and its launcher [main.py]

    The Tk widgets are reduced to what the game logic reads and writes:
    every button is known by its index in [self.buttons], and the only
    widget property the logic consults is the [(row, column)] of its grid
    cell.  The text of the counter label and the dialogs opened with
    [mb.showinfo] are kept as plain data so that statements about them
    can be made. *)

From Stdlib Require Import Ascii.
From stdpp Require Import base numbers list list_numbers strings gmap
  relations pretty.

Local Open Scope Z_scope.

(** ** game.py *)

Module game.

(** A grid cell, as [(row, column)]. *)
Abbreviation pos := (Z * Z)%type.

(** The attributes of a [puzzle] object.  [buttons] holds, for button
    [i], the [grid_info()] row and column of [self.buttons[i]];
    [dialogs] logs the [(title, message)] of every [mb.showinfo]. *)
Record puzzle : Type := Puzzle {
  N : Z;
  buttons : list pos;
  vacant : pos;
  monitor_status : bool;
  moves : Z;
  count_label : string;
  dialogs : list (string * string)
}.

Definition set_grid (bs : list pos) (v : pos) (s : puzzle) : puzzle :=
  {| N := N s; buttons := bs; vacant := v;
     monitor_status := monitor_status s; moves := moves s;
     count_label := count_label s; dialogs := dialogs s |}.

Definition set_monitor_status (m : bool) (s : puzzle) : puzzle :=
  {| N := N s; buttons := buttons s; vacant := vacant s;
     monitor_status := m; moves := moves s;
     count_label := count_label s; dialogs := dialogs s |}.

Definition set_moves (k : Z) (s : puzzle) : puzzle :=
  {| N := N s; buttons := buttons s; vacant := vacant s;
     monitor_status := monitor_status s; moves := k;
     count_label := count_label s; dialogs := dialogs s |}.

Definition set_count_label (t : string) (s : puzzle) : puzzle :=
  {| N := N s; buttons := buttons s; vacant := vacant s;
     monitor_status := monitor_status s; moves := moves s;
     count_label := t; dialogs := dialogs s |}.

Definition showinfo (title message : string) (s : puzzle) : puzzle :=
  {| N := N s; buttons := buttons s; vacant := vacant s;
     monitor_status := monitor_status s; moves := moves s;
     count_label := count_label s;
     dialogs := dialogs s ++ [(title, message)] |}.

(** [range(n)] *)
Definition range (n : Z) : list Z := seqZ 0 n.

(** [itertools.product(xs, ys)]: the rightmost index runs fastest. *)
Definition product {A B} (xs : list A) (ys : list B) : list (A * B) :=
  x ← xs; y ← ys; [(x, y)].

(** The slice [l[: -1]]. *)
Definition but_last {A} (l : list A) : list A := take (length l - 1)%nat l.

(** [puzzle.__init__]: one button per cell of the product, the last cell
    left out; button [i] is put on [(r, c)] by [button.grid]. *)
Definition init (n : Z) : puzzle :=
  {| N := n;
     buttons := but_last (product (range n) (range n));
     vacant := (n - 1, n - 1);
     monitor_status := false;
     moves := 0;
     count_label := "moves: 0";
     dialogs := [] |}.

(** [set((abs(vacant_row - button_row), abs(vacant_column - button_column)))
    == {0, 1}] *)
Definition adjacent (v b : pos) : bool :=
  bool_decide
    (({[ Z.abs (v.1 - b.1); Z.abs (v.2 - b.2) ]} : gset Z) = {[ 0; 1 ]}).

(** [all(i == row * N + column for i, button in enumerate(self.buttons))] *)
Definition all_home (n : Z) (bs : list pos) : bool :=
  forallb id (imap (λ i p, bool_decide (Z.of_nat i = p.1 * n + p.2)) bs).

Definition moves_text (k : Z) : string := "moves: " +:+ pretty k.

Definition solved_message (k : Z) : string :=
  "You have solved the puzzle in " +:+ pretty k +:+ " moves!".

(** The first half of [puzzle.move]: the exchange with the vacant slot. *)
Definition slide (b : nat) (p : pos) (s : puzzle) : puzzle :=
  if adjacent (vacant s) p
  then set_grid (<[b := vacant s]> (buttons s)) p s
  else s.

(** The second half of [puzzle.move]: counter and completion test. *)
Definition monitor (s : puzzle) : puzzle :=
  if monitor_status s then
    let s1 := set_moves (moves s + 1) s in
    let s2 := set_count_label (moves_text (moves s1)) s1 in
    if all_home (N s2) (buttons s2)
    then showinfo "Puzzle Solved!" (solved_message (moves s2))
           (set_monitor_status false s2)
    else s2
  else s.

(** [puzzle.move(_button)], the button given by its index.  [None] stands
    for an index that names no button, which no caller can produce. *)
Definition move (s : puzzle) (b : nat) : option puzzle :=
  p ← buttons s !! b; Some (monitor (slide b p s)).

(** [for button in picks: self.move(button)] *)
Fixpoint move_each (picks : list nat) (s : puzzle) : option puzzle :=
  match picks with
  | [] => Some s
  | b :: picks' => s' ← move s b; move_each picks' s'
  end.

(** [random.choices(population, k = k)] for a population of [n] items,
    returned as indices.  [draw i] is the [i]-th number delivered by the
    generator, brought into [0 .. n-1]; an empty population with [k > 0]
    raises [IndexError]. *)
Definition choices (draw : nat → nat) (n k : nat) : option (list nat) :=
  if decide (n = 0%nat ∧ k ≠ 0%nat) then None
  else Some ((λ i, draw i `mod` n)%nat <$> seq 0 k).

(** [puzzle.randomise] *)
Definition randomise (draw : nat → nat) (s : puzzle) : option puzzle :=
  let s0 := set_monitor_status false s in
  picks ← choices draw (length (buttons s0)) (Z.to_nat (1000 * N s0));
  s1 ← move_each picks s0;
  Some (set_count_label "moves: 0" (set_moves 0 (set_monitor_status true s1))).

(** [puzzle.reset]; [i // self.N] raises [ZeroDivisionError] when
    [self.N] is [0] and there is a button to place. *)
Definition reset (s : puzzle) : option puzzle :=
  if decide (N s = 0 ∧ buttons s ≠ []) then None
  else
    Some {| N := N s;
            buttons := imap (λ i _, (Z.of_nat i `div` N s, Z.of_nat i `mod` N s))
                            (buttons s);
            vacant := (N s - 1, N s - 1);
            monitor_status := false;
            moves := 0;
            count_label := "moves: 0";
            dialogs := dialogs s |}.

(** The module constants [pad] and [imsize]. *)
Definition pad : Z := 10.
Definition imsize : Z := 600.

(** A run of [k] characters [0]. *)
Fixpoint zeros (k : nat) : string :=
  match k with
  | O => ""
  | S k' => String "0"%char (zeros k')
  end.

(** The format [{i:03d}] of a number that is not negative: its decimal
    digits, filled with zeros on the left up to [width] characters. *)
Definition zero_fill (width : nat) (digits : string) : string :=
  zeros (width - String.length digits) +:+ digits.

(** [f'img{i:03d}.png'] *)
Definition tile_file (i : nat) : string :=
  "img" +:+ zero_fill 3 (pretty i) +:+ ".png".

(** The bounds of a slice [img[row_from : row_to, col_from : col_to]]. *)
Record crop : Type := Crop {
  row_from : Z;
  row_to : Z;
  col_from : Z;
  col_to : Z
}.

(** [img[r * h_step : (r + 1) * h_step, c * v_step : (c + 1) * v_step]]
    with [h_step = img.shape[0] // N] and [v_step = img.shape[1] // N]. *)
Definition img_crop (shape0 shape1 n r c : Z) : crop :=
  let h_step := shape0 `div` n in
  let v_step := shape1 `div` n in
  {| row_from := r * h_step; row_to := (r + 1) * h_step;
     col_from := c * v_step; col_to := (c + 1) * v_step |}.

(** The side [imsize // self.N] every crop is resized to. *)
Definition tile_side (n : Z) : Z := imsize `div` n.

(** The names the [try] block of the constructor runs through,
    [f'img{i:03d}.png' for i in range(self.N ** 2 - 1)]; how far it gets
    is told by [open_each] below. *)
Definition checked_files (n : Z) : list string :=
  (λ i, tile_file (Z.to_nat i)) <$> range (n ^ 2 - 1).

(** The passes of the loop in the [except] block, for an image of
    [shape0] rows and [shape1] columns: the file name and the crop of
    each tile in turn.  Whether a pass gets as far as writing its file
    is told by [write_each] below. *)
Definition written_tiles (shape0 shape1 n : Z) : list (string * crop) :=
  imap (λ i rc, (tile_file i, img_crop shape0 shape1 n rc.1 rc.2))
       (but_last (product (range n) (range n))).

(** The [finally] block: the file loaded for each button. *)
Definition loaded_files (n : Z) : list string :=
  imap (λ i _, tile_file i) (but_last (product (range n) (range n))).

(** The exceptions the constructor can meet. *)
Inductive error : Type :=
  FileNotFoundError | AttributeError | cv2_error | TclError.

(** What the constructor finds on the machine: [files] are the names
    [open] and [tk.PhotoImage] can read in the working directory, and
    [imread path] is the shape (rows, columns) of the array
    [cv2.imread(path)] returns, [None] when it returns [None].  The
    window system and the working directory are taken to be in order:
    widgets can be created and [cv2.imwrite] creates its file. *)
Record world : Type := World {
  files : gset string;
  imread : string → option (nat * nat)
}.

(** The loop of the [try] block over [names]: the first name that is not
    a file raises [FileNotFoundError] and ends the loop.  The result is
    the names opened and what was raised. *)
Fixpoint open_each (fs : gset string) (names : list string)
    : list string * option error :=
  match names with
  | [] => ([], None)
  | name :: names' =>
      if decide (name ∈ fs)
      then let r := open_each fs names' in (name :: r.1, r.2)
      else ([], Some FileNotFoundError)
  end.

(** The number of indices a slice [from : to] selects on an axis of
    length [len], for bounds that are not negative. *)
Definition slice_length (from to len : Z) : Z :=
  Z.max 0 (Z.min to len - Z.min from len).

(** One pass of the loop in the [except] block: [cv2.resize] raises on a
    crop without pixels and on a target size without pixels; otherwise
    [cv2.imwrite] creates the file. *)
Definition write_tile (shape0 shape1 n : Z) (fs : gset string)
    (tile : string * crop) : error + gset string :=
  if decide (0 < slice_length (row_from tile.2) (row_to tile.2) shape0
             ∧ 0 < slice_length (col_from tile.2) (col_to tile.2) shape1
             ∧ 0 < tile_side n)
  then inr ({[ tile.1 ]} ∪ fs)
  else inl cv2_error.

(** The loop of the [except] block: the files after it and what was
    raised. *)
Fixpoint write_each (shape0 shape1 n : Z) (fs : gset string)
    (tiles : list (string * crop)) : gset string * option error :=
  match tiles with
  | [] => (fs, None)
  | tile :: tiles' =>
      match write_tile shape0 shape1 n fs tile with
      | inr fs' => write_each shape0 shape1 n fs' tiles'
      | inl e => (fs, Some e)
      end
  end.

(** The [except FileNotFoundError] block.  With [img] being [None] the
    first pass of the loop raises [AttributeError] at [img.shape]. *)
Definition except_block (w : world) (image : string) (n : Z)
    : gset string * option error :=
  match imread w image with
  | Some (rows, cols) =>
      write_each (Z.of_nat rows) (Z.of_nat cols) n (files w)
        (written_tiles (Z.of_nat rows) (Z.of_nat cols) n)
  | None =>
      match but_last (product (range n) (range n)) with
      | [] => (files w, None)
      | _ :: _ => (files w, Some AttributeError)
      end
  end.

(** The loop of the [finally] block: [tk.PhotoImage(file = name)] raises
    [TclError] for a name that is not a file. *)
Fixpoint load_each (fs : gset string) (names : list string)
    : option error :=
  match names with
  | [] => None
  | name :: names' =>
      if decide (name ∈ fs) then load_each fs names' else Some TclError
  end.

(** [puzzle.__init__] with its [try], [except] and [finally] blocks: the
    exception raised, or the files on the machine afterwards and the
    state of the new object.  An exception raised in the [finally]
    block takes the place of one that is on its way out. *)
Definition construct (w : world) (image : string) (n : Z)
    : error + (gset string * puzzle) :=
  let handled :=
    match (open_each (files w) (checked_files n)).2 with
    | Some FileNotFoundError => except_block w image n
    | other => (files w, other)
    end in
  match load_each handled.1 (loaded_files n), handled.2 with
  | Some e, _ => inl e
  | None, Some e => inl e
  | None, None => inr (handled.1, init n)
  end.

End game.

(** ** main.py *)

Module main.

Inductive exn : Type := AssertionError | IndexError | ValueError.

(** The [try] block of [main]: [argv1] is the outcome of
    [int(sys.argv[1])], then [assert N > 2]. *)
Definition read_N (argv1 : exn + Z) : exn + Z :=
  match argv1 with
  | inl e => inl e
  | inr n => if bool_decide (n > 2) then inr n else inl AssertionError
  end.

(** [try: ... except (AssertionError, IndexError, ValueError): N = 3] *)
Definition board_size (argv1 : exn + Z) : Z :=
  match read_N argv1 with
  | inr n => n
  | inl (AssertionError | IndexError | ValueError) => 3
  end.

(** The second [try] block: [argv2] is [sys.argv[2]], [None] when it
    raises [IndexError]. *)
Definition image_path (argv2 : option string) : string :=
  match argv2 with
  | Some path => path
  | None => "crysis2.png"
  end.

(** [main], up to the construction of the puzzle: no exception escapes
    the two [try] blocks, those of the constructor are not caught. *)
Definition main (w : game.world) (argv1 : exn + Z) (argv2 : option string)
    : game.error + (gset string * game.puzzle) :=
  game.construct w (image_path argv2) (board_size argv1).

End main.

Import game.

(** ** The vocabulary of the specification *)

(** A cell of the [n] by [n] board. *)
Definition in_grid (n : Z) (p : pos) : Prop :=
  0 ≤ p.1 < n ∧ 0 ≤ p.2 < n.

(** One adjacency step: exactly one of the row and column deltas is 1
    and the other is 0. *)
Definition one_step (p q : pos) : Prop :=
  (Z.abs (p.1 - q.1) = 1 ∧ Z.abs (p.2 - q.2) = 0)
  ∨ (Z.abs (p.1 - q.1) = 0 ∧ Z.abs (p.2 - q.2) = 1).

(** The home cell of tile [k] on a board of size [n]. *)
Definition home (n : Z) (k : nat) : pos :=
  (Z.of_nat k `div` n, Z.of_nat k `mod` n).

(** The placement of the tiles together with the vacancy. *)
Definition config : Type := list pos * pos.

Definition config_of (s : puzzle) : config := (buttons s, vacant s).

(** A swap of the vacancy [v] with the tile on a neighbouring cell. *)
Inductive legal_swap (n : Z) : relation config :=
  | legal_swap_intro (bs : list pos) (v : pos) (k : nat) (p : pos) :
      bs !! k = Some p →
      in_grid n p → in_grid n v →
      (∀ j, bs !! j ≠ Some v) →
      one_step p v →
      legal_swap n (bs, v) (<[k := v]> bs, p).

(** The states a puzzle object can be in: built by the constructor, then
    driven by clicks on tiles, on Start and on Reset. *)
Inductive reachable (n : Z) : puzzle → Prop :=
  | reachable_init : reachable n (init n)
  | reachable_move s b s' :
      reachable n s → move s b = Some s' → reachable n s'
  | reachable_randomise s draw s' :
      reachable n s → randomise draw s = Some s' → reachable n s'
  | reachable_reset s s' :
      reachable n s → reset s = Some s' → reachable n s'.

(** Several presses of Start in a row, each with its own random draws. *)
Fixpoint randomise_each (draws : list (nat → nat)) (s : puzzle) : option puzzle :=
  match draws with
  | [] => Some s
  | d :: draws' => s' ← randomise d s; randomise_each draws' s'
  end.

(** What the board must look like at all times. *)
Record valid (s : puzzle) : Prop := Valid {
  valid_length : length (buttons s) = Z.to_nat (N s * N s - 1);
  valid_vacant : in_grid (N s) (vacant s);
  valid_buttons : ∀ k p, buttons s !! k = Some p → in_grid (N s) p;
  valid_free : ∀ k, buttons s !! k ≠ Some (vacant s);
  valid_inj : ∀ j k p,
    buttons s !! j = Some p → buttons s !! k = Some p → j = k;
  valid_full : ∀ p,
    in_grid (N s) p → p ≠ vacant s → ∃ k, buttons s !! k = Some p
}.

(** The state [reset] is meant to produce on a board of size [n]. *)
Definition fresh (n : Z) (log : list (string * string)) : puzzle :=
  {| N := n; buttons := buttons (init n); vacant := vacant (init n);
     monitor_status := false; moves := 0; count_label := "moves: 0";
     dialogs := log |}.




(** A machine with no tile file and a picture of 600 by 400 pixels. *)
Definition picture_on_disk : world :=
  {| files := ∅; imread := λ _, Some (600%nat, 400%nat) |}.

(** Random draws that pick button 7 first and button 0 ever after. *)
Definition seven_first (i : nat) : nat :=
  match i with O => 7%nat | S _ => 0%nat end.

(** The 3 by 3 board after Start with the draws [seven_first]: tile 7
    has moved into the corner, the game is monitored. *)
Definition shuffled_once : puzzle :=
  {| N := 3;
     buttons := [(0,0);(0,1);(0,2);(1,0);(1,1);(1,2);(2,0);(2,2)];
     vacant := (2, 1);
     monitor_status := true;
     moves := 0;
     count_label := "moves: 0";
     dialogs := [] |}.

(** [shuffled_once] after a click on tile 7: the puzzle is solved. *)
Definition solved_once : puzzle :=
  {| N := 3;
     buttons := [(0,0);(0,1);(0,2);(1,0);(1,1);(1,2);(2,0);(2,1)];
     vacant := (2, 2);
     monitor_status := false;
     moves := 1;
     count_label := "moves: 1";
     dialogs := [("Puzzle Solved!", "You have solved the puzzle in 1 moves!")] |}.

(** Two states that show the same board. *)
Definition same_board (s t : puzzle) : Prop :=
  N s = N t ∧ buttons s = buttons t ∧ vacant s = vacant t.

(** The row-major number of a cell. *)
Definition cell_number (n : Z) (p : pos) : Z := p.1 * n + p.2.

(** The cells of tiles 0, 1, ... in turn, then the vacant cell. *)
Definition arrangement (s : puzzle) : list Z :=
  (cell_number (N s) <$> buttons s) ++ [cell_number (N s) (vacant s)].

(** The number of pairs of a list that stand in descending order. *)
Fixpoint inversions (l : list Z) : nat :=
  match l with
  | [] => 0%nat
  | x :: l' => (length (filter (λ y, (y < x)%Z) l') + inversions l')%nat
  end.

(** The number of pairs [(x, y)], [x] from [l] and [y] from [c], with
    [y < x]. *)
Fixpoint crossings (l c : list Z) : nat :=
  match l with
  | [] => 0%nat
  | x :: l' => (length (filter (λ y, (y < x)%Z) c) + crossings l' c)%nat
  end.

(** The quantity every move leaves even: the inversions of the
    arrangement plus the row and the column of the vacant cell. *)
Definition balanced (s : puzzle) : Prop :=
  (Z.of_nat (inversions (arrangement s)) + (vacant s).1 + (vacant s).2)
    `mod` 2 = 0.

(** Reading a number back from its decimal digits. *)
Definition digit_value (c : ascii) : BinNums.N :=
  (N_of_ascii c - 48)%N.

Fixpoint digits_value (s : string) : BinNums.N :=
  match s with
  | EmptyString => 0%N
  | String c s' =>
      (digit_value c * 10 ^ N.of_nat (String.length s') + digits_value s')%N
  end.

(** A pixel inside a crop. *)
Definition in_crop (b : crop) (y x : Z) : Prop :=
  row_from b ≤ y < row_to b ∧ col_from b ≤ x < col_to b.

(** ** Adjacency *)

Lemma adjacent_one_step (v p : pos) : adjacent v p = true ↔ one_step p v.
Proof.
  unfold adjacent, one_step. rewrite bool_decide_eq_true.
  destruct v as [vr vc], p as [pr pc]; simpl.
  split.
  - intros E.
    assert (H0 : (0 : Z) ∈ ({[Z.abs (vr - pr); Z.abs (vc - pc)]} : gset Z))
      by (rewrite E; set_solver).
    assert (H1 : (1 : Z) ∈ ({[Z.abs (vr - pr); Z.abs (vc - pc)]} : gset Z))
      by (rewrite E; set_solver).
    set_unfold. lia.
  - intros [[Hr Hc]|[Hr Hc]].
    + replace (Z.abs (vr - pr)) with 1 by lia.
      replace (Z.abs (vc - pc)) with 0 by lia. set_solver.
    + replace (Z.abs (vr - pr)) with 0 by lia.
      replace (Z.abs (vc - pc)) with 1 by lia. set_solver.
Qed.

Lemma adjacent_false (v p : pos) : adjacent v p = false ↔ ¬ one_step p v.
Proof. rewrite <- adjacent_one_step. by destruct (adjacent v p). Qed.

Lemma one_step_ne (p q : pos) : one_step p q → p ≠ q.
Proof. unfold one_step. intros H ->. lia. Qed.

Lemma one_step_sym (p q : pos) : one_step p q → one_step q p.
Proof. unfold one_step. lia. Qed.

(** ** The constructor's placement of the buttons *)

Lemma product_cons {A B} (x : A) (xs : list A) (ys : list B) :
  product (x :: xs) ys = ((x,.) <$> ys) ++ product xs ys.
Proof.
  unfold product. simpl. by f_equal.
Qed.

Lemma length_product {A B} (xs : list A) (ys : list B) :
  length (product xs ys) = (length xs * length ys)%nat.
Proof.
  induction xs as [|x xs IH]; [done|].
  rewrite product_cons, length_app, length_fmap, IH. simpl. lia.
Qed.

Lemma lookup_product {A B} (xs : list A) (ys : list B) (i : nat) :
  length ys ≠ 0%nat →
  product xs ys !! i =
    (x ← xs !! (i `div` length ys)%nat;
     y ← ys !! (i `mod` length ys)%nat; Some (x, y)).
Proof.
  intros Hm. revert i. induction xs as [|x xs IH]; intros i.
  - unfold product. simpl. by rewrite !lookup_nil.
  - rewrite product_cons.
    destruct (decide (i < length ys)%nat) as [Hlt|Hge].
    + rewrite lookup_app_l by (by rewrite length_fmap).
      rewrite Nat.div_small, Nat.mod_small by done. simpl.
      rewrite list_lookup_fmap. by destruct (ys !! i).
    + rewrite lookup_app_r by (rewrite length_fmap; lia).
      rewrite length_fmap, IH.
      assert (Hi : i = ((i - length ys) + 1 * length ys)%nat) by lia.
      assert (Hd : (i `div` length ys
                    = S ((i - length ys) `div` length ys))%nat).
      { rewrite Hi at 1. rewrite Nat.div_add by done. lia. }
      assert (Hr : (i `mod` length ys = (i - length ys) `mod` length ys)%nat).
      { rewrite Hi at 1. by rewrite Nat.Div0.mod_add. }
      by rewrite Hd, Hr.
Qed.

Lemma length_init (n : Z) :
  length (buttons (init n)) = (Z.to_nat n * Z.to_nat n - 1)%nat.
Proof.
  simpl. unfold but_last, range.
  rewrite length_take, length_product, !length_seqZ. lia.
Qed.

Lemma length_init_Z (n : Z) :
  0 ≤ n → length (buttons (init n)) = Z.to_nat (n * n - 1).
Proof. intros Hn. rewrite length_init. nia. Qed.

Lemma lookup_init (n : Z) (k : nat) (p : pos) :
  buttons (init n) !! k = Some p ↔
  Z.of_nat k < n * n - 1 ∧ 0 < n ∧ p = home n k.
Proof.
  split.
  - intros Hk.
    assert (Hlt : (k < length (buttons (init n)))%nat)
      by (apply lookup_lt_is_Some; eauto).
    rewrite length_init in Hlt.
    assert (Hn : 0 < n) by lia.
    revert Hk. simpl. unfold but_last.
    rewrite lookup_take_lt
      by (rewrite length_product; unfold range; rewrite !length_seqZ; lia).
    rewrite lookup_product by (unfold range; rewrite length_seqZ; lia).
    unfold range. rewrite length_seqZ.
    assert (Hd : Z.of_nat (k `div` Z.to_nat n) = Z.of_nat k `div` n)
      by (rewrite Nat2Z.inj_div, Z2Nat.id; lia).
    assert (Hm : Z.of_nat (k `mod` Z.to_nat n) = Z.of_nat k `mod` n)
      by (rewrite Nat2Z.inj_mod, Z2Nat.id; lia).
    assert (0 ≤ Z.of_nat k `mod` n < n) by (apply Z.mod_pos_bound; lia).
    assert (Z.of_nat k `div` n < n)
      by (apply Z.div_lt_upper_bound; nia).
    rewrite !lookup_seqZ_lt by lia. simpl.
    intros [= <-]. split; [nia|]. split; [done|].
    unfold home. f_equal; lia.
  - intros (Hk & Hn & ->).
    assert (Hlt : (k < length (buttons (init n)))%nat)
      by (rewrite length_init; nia).
    apply lookup_lt_is_Some in Hlt as [q Hq].
    rewrite Hq. f_equal.
    revert Hq. simpl. unfold but_last.
    rewrite lookup_take_lt
      by (rewrite length_product; unfold range; rewrite !length_seqZ; nia).
    rewrite lookup_product by (unfold range; rewrite length_seqZ; lia).
    unfold range. rewrite length_seqZ.
    assert (Hd : Z.of_nat (k `div` Z.to_nat n) = Z.of_nat k `div` n)
      by (rewrite Nat2Z.inj_div, Z2Nat.id; lia).
    assert (Hm : Z.of_nat (k `mod` Z.to_nat n) = Z.of_nat k `mod` n)
      by (rewrite Nat2Z.inj_mod, Z2Nat.id; lia).
    assert (0 ≤ Z.of_nat k `mod` n < n) by (apply Z.mod_pos_bound; lia).
    assert (Z.of_nat k `div` n < n)
      by (apply Z.div_lt_upper_bound; nia).
    rewrite !lookup_seqZ_lt by lia. simpl.
    intros [= <-]. unfold home. f_equal; lia.
Qed.

(** ** Home cells *)

Lemma home_index (n : Z) (k : nat) :
  0 < n → (home n k).1 * n + (home n k).2 = Z.of_nat k.
Proof.
  intros Hn. unfold home. simpl.
  pose proof (Z.div_mod (Z.of_nat k) n). lia.
Qed.

Lemma home_in_grid (n : Z) (k : nat) :
  0 < n → Z.of_nat k < n * n → in_grid n (home n k).
Proof.
  intros Hn Hk. unfold in_grid, home. simpl.
  pose proof (Z.mod_pos_bound (Z.of_nat k) n Hn).
  assert (0 ≤ Z.of_nat k `div` n) by (apply Z.div_pos; lia).
  assert (Z.of_nat k `div` n < n) by (apply Z.div_lt_upper_bound; lia).
  lia.
Qed.

Lemma index_home (n : Z) (k : nat) (p : pos) :
  in_grid n p → Z.of_nat k = p.1 * n + p.2 → p = home n k.
Proof.
  intros [Hr Hc] Hk. destruct p as [r c]. simpl in *. unfold home.
  f_equal.
  - apply Z.div_unique with c; lia.
  - apply Z.mod_unique with r; lia.
Qed.

Lemma home_inj (n : Z) (j k : nat) : 0 < n → home n j = home n k → j = k.
Proof.
  intros Hn E.
  pose proof (home_index n j Hn). pose proof (home_index n k Hn).
  rewrite E in *. lia.
Qed.

(** ** What the two halves of [move] touch *)

Lemma N_slide b p s : N (slide b p s) = N s.
Proof. unfold slide. by destruct (adjacent _ _). Qed.

Lemma monitor_status_slide b p s :
  monitor_status (slide b p s) = monitor_status s.
Proof. unfold slide. by destruct (adjacent _ _). Qed.

Lemma moves_slide b p s : moves (slide b p s) = moves s.
Proof. unfold slide. by destruct (adjacent _ _). Qed.

Lemma dialogs_slide b p s : dialogs (slide b p s) = dialogs s.
Proof. unfold slide. by destruct (adjacent _ _). Qed.

Lemma count_label_slide b p s : count_label (slide b p s) = count_label s.
Proof. unfold slide. by destruct (adjacent _ _). Qed.

Lemma length_slide b p s :
  length (buttons (slide b p s)) = length (buttons s).
Proof.
  unfold slide. destruct (adjacent _ _); [|done].
  simpl. by rewrite length_insert.
Qed.

Lemma N_monitor s : N (monitor s) = N s.
Proof.
  unfold monitor. destruct (monitor_status s); [|done].
  simpl. by destruct (all_home _ _).
Qed.

Lemma buttons_monitor s : buttons (monitor s) = buttons s.
Proof.
  unfold monitor. destruct (monitor_status s); [|done].
  simpl. by destruct (all_home _ _).
Qed.

Lemma vacant_monitor s : vacant (monitor s) = vacant s.
Proof.
  unfold monitor. destruct (monitor_status s); [|done].
  simpl. by destruct (all_home _ _).
Qed.

Lemma monitor_off s : monitor_status s = false → monitor s = s.
Proof. unfold monitor. by intros ->. Qed.

Lemma move_Some s b p :
  buttons s !! b = Some p → move s b = Some (monitor (slide b p s)).
Proof. unfold move. by intros ->. Qed.

Lemma move_inv s b s' :
  move s b = Some s' →
  ∃ p, buttons s !! b = Some p ∧ s' = monitor (slide b p s).
Proof.
  unfold move. destruct (buttons s !! b) as [p|]; simpl; [|done].
  intros [= <-]. eauto.
Qed.

(** ** The board stays well formed *)

Lemma valid_ext s s' :
  N s' = N s → buttons s' = buttons s → vacant s' = vacant s →
  valid s → valid s'.
Proof.
  intros HN Hb Hv [H1 H2 H3 H4 H5 H6].
  split; rewrite ?HN, ?Hb, ?Hv; done.
Qed.

Lemma valid_init (n : Z) : 1 ≤ n → valid (init n).
Proof.
  intros Hn.
  split; change (N (init n)) with n;
    change (vacant (init n)) with (n - 1, n - 1).
  - apply length_init_Z. lia.
  - unfold in_grid. simpl. lia.
  - intros k p (Hk & _ & ->)%lookup_init. apply home_in_grid; lia.
  - intros k (Hk & _ & E)%lookup_init.
    pose proof (home_index n k ltac:(lia)) as Hi.
    rewrite <- E in Hi. simpl in *. lia.
  - intros j k p (_ & _ & ->)%lookup_init (_ & _ & E)%lookup_init.
    apply (home_inj n); [lia | done].
  - intros [r c] [Hr Hc] Hne. simpl in *.
    exists (Z.to_nat (r * n + c)). apply lookup_init.
    assert (r ≠ n - 1 ∨ c ≠ n - 1) as Hrc.
    { destruct (decide (r = n - 1)); [right|left]; congruence. }
    split; [nia|]. split; [lia|].
    apply index_home; [done|]. simpl. nia.
Qed.

Lemma valid_slide b p s :
  valid s → buttons s !! b = Some p → valid (slide b p s).
Proof.
  intros Hs Hb. unfold slide.
  destruct (adjacent (vacant s) p) eqn:Hadj; [|done].
  destruct Hs as [H1 H2 H3 H4 H5 H6].
  assert (Hlt : (b < length (buttons s))%nat)
    by (apply lookup_lt_is_Some; eauto).
  assert (Hpv : p ≠ vacant s) by (intros ->; by apply (H4 b)).
  split; simpl.
  - by rewrite length_insert.
  - by apply (H3 b).
  - intros k q. destruct (decide (k = b)) as [->|Hk].
    + rewrite list_lookup_insert_eq by done. by intros [= <-].
    + rewrite list_lookup_insert_ne by done. apply H3.
  - intros k. destruct (decide (k = b)) as [->|Hk].
    + rewrite list_lookup_insert_eq by done. congruence.
    + rewrite list_lookup_insert_ne by done. intros Hq. apply Hk.
      by apply (H5 k b p).
  - intros j k q.
    destruct (decide (j = b)) as [->|Hj], (decide (k = b)) as [->|Hk];
      rewrite ?list_lookup_insert_eq, ?list_lookup_insert_ne by done;
      [done| | |by apply H5].
    + intros [= <-] Hq. by destruct (H4 k).
    + intros Hq [= <-]. by destruct (H4 j).
  - intros q Hq Hqp.
    destruct (decide (q = vacant s)) as [->|Hqv].
    + exists b. by rewrite list_lookup_insert_eq.
    + destruct (H6 q Hq Hqv) as [k Hk]. exists k.
      rewrite list_lookup_insert_ne; [done|]. intros <-. congruence.
Qed.

Lemma valid_monitor s : valid s → valid (monitor s).
Proof.
  apply valid_ext; auto using N_monitor, buttons_monitor, vacant_monitor.
Qed.

Lemma valid_move s b s' : valid s → move s b = Some s' → valid s'.
Proof.
  intros Hs (p & Hp & ->)%move_inv.
  by apply valid_monitor, valid_slide.
Qed.

Lemma N_move s b s' : move s b = Some s' → N s' = N s.
Proof. intros (p & Hp & ->)%move_inv. by rewrite N_monitor, N_slide. Qed.

Lemma length_move s b s' :
  move s b = Some s' → length (buttons s') = length (buttons s).
Proof.
  intros (p & Hp & ->)%move_inv. by rewrite buttons_monitor, length_slide.
Qed.

Lemma move_each_inv_cons b picks s s' :
  move_each (b :: picks) s = Some s' →
  ∃ s1, move s b = Some s1 ∧ move_each picks s1 = Some s'.
Proof. simpl. destruct (move s b) as [s1|]; simpl; [eauto|done]. Qed.

Lemma valid_move_each picks s s' :
  valid s → move_each picks s = Some s' → valid s'.
Proof.
  revert s. induction picks as [|b picks IH]; intros s Hs.
  - by intros [= <-].
  - intros (s1 & H1 & H2)%move_each_inv_cons. eauto using valid_move.
Qed.

Lemma N_move_each picks s s' : move_each picks s = Some s' → N s' = N s.
Proof.
  revert s. induction picks as [|b picks IH]; intros s.
  - by intros [= <-].
  - intros (s1 & H1 & H2)%move_each_inv_cons.
    rewrite (IH _ H2). by eapply N_move.
Qed.

Lemma length_move_each picks s s' :
  move_each picks s = Some s' → length (buttons s') = length (buttons s).
Proof.
  revert s. induction picks as [|b picks IH]; intros s.
  - by intros [= <-].
  - intros (s1 & H1 & H2)%move_each_inv_cons.
    rewrite (IH _ H2). by eapply length_move.
Qed.

(** ** Moves while the game is not monitored *)

Lemma move_unmonitored s b s' :
  monitor_status s = false → move s b = Some s' →
  monitor_status s' = false ∧ moves s' = moves s
  ∧ dialogs s' = dialogs s ∧ count_label s' = count_label s.
Proof.
  intros Hm (p & Hp & ->)%move_inv.
  rewrite monitor_off by (by rewrite monitor_status_slide).
  by rewrite monitor_status_slide, moves_slide, dialogs_slide,
    count_label_slide.
Qed.

Lemma move_each_unmonitored picks s s' :
  monitor_status s = false → move_each picks s = Some s' →
  monitor_status s' = false ∧ moves s' = moves s
  ∧ dialogs s' = dialogs s ∧ count_label s' = count_label s.
Proof.
  revert s. induction picks as [|b picks IH]; intros s Hm.
  - by intros [= <-].
  - intros (s1 & H1 & H2)%move_each_inv_cons.
    destruct (move_unmonitored _ _ _ Hm H1) as (Hm1 & E1 & E2 & E3).
    rewrite <- E1, <- E2, <- E3. by apply IH.
Qed.

Lemma move_each_Some picks s :
  Forall (λ b, (b < length (buttons s))%nat) picks →
  is_Some (move_each picks s).
Proof.
  revert s. induction picks as [|b picks IH]; intros s Hall; [by eexists|].
  apply Forall_cons in Hall as [Hb Hall].
  apply lookup_lt_is_Some in Hb as [p Hp].
  simpl. rewrite (move_Some _ _ _ Hp). simpl. apply IH.
  by rewrite buttons_monitor, length_slide.
Qed.

(** ** The random picks *)

Lemma choices_Some draw (n k : nat) :
  n ≠ 0%nat →
  ∃ picks, choices draw n k = Some picks ∧ length picks = k
           ∧ Forall (λ b, (b < n)%nat) picks.
Proof.
  intros Hn. unfold choices. rewrite decide_False by tauto.
  eexists. split; [done|]. split.
  - by rewrite length_fmap, length_seq.
  - apply Forall_fmap, Forall_forall. intros i _. simpl.
    by apply Nat.mod_upper_bound.
Qed.

Lemma choices_length draw (n k : nat) picks :
  choices draw n k = Some picks → length picks = k.
Proof.
  unfold choices. case_decide; [done|]. intros [= <-].
  by rewrite length_fmap, length_seq.
Qed.

Lemma randomise_inv draw s s' :
  randomise draw s = Some s' →
  ∃ picks s1,
    choices draw (length (buttons s)) (Z.to_nat (1000 * N s)) = Some picks
    ∧ move_each picks (set_monitor_status false s) = Some s1
    ∧ s' = set_count_label "moves: 0"
             (set_moves 0 (set_monitor_status true s1)).
Proof.
  unfold randomise. simpl.
  destruct (choices _ _ _) as [picks|] eqn:Hc; simpl; [|done].
  destruct (move_each picks _) as [s1|] eqn:Hm; simpl; [|done].
  intros [= <-]. by exists picks, s1.
Qed.

Lemma randomise_Some draw s :
  buttons s ≠ [] →
  ∃ picks s1,
    choices draw (length (buttons s)) (Z.to_nat (1000 * N s)) = Some picks
    ∧ length picks = Z.to_nat (1000 * N s)
    ∧ Forall (λ b, (b < length (buttons s))%nat) picks
    ∧ move_each picks (set_monitor_status false s) = Some s1
    ∧ randomise draw s
      = Some (set_count_label "moves: 0"
                (set_moves 0 (set_monitor_status true s1))).
Proof.
  intros Hne.
  destruct (choices_Some draw (length (buttons s)) (Z.to_nat (1000 * N s)))
    as (picks & Hc & Hl & Hall).
  { by destruct (buttons s). }
  destruct (move_each_Some picks (set_monitor_status false s) Hall)
    as [s1 Hs1].
  exists picks, s1. repeat split; try done.
  unfold randomise. simpl. rewrite Hc. simpl. by rewrite Hs1.
Qed.

Lemma valid_randomise draw s s' :
  valid s → randomise draw s = Some s' → valid s'.
Proof.
  intros Hs (picks & s1 & _ & Hm & ->)%randomise_inv.
  assert (Hs0 : valid (set_monitor_status false s))
    by (by apply (valid_ext s)).
  by apply (valid_ext s1), (valid_move_each picks _ _ Hs0 Hm).
Qed.

Lemma N_randomise draw s s' : randomise draw s = Some s' → N s' = N s.
Proof.
  intros (picks & s1 & _ & Hm & ->)%randomise_inv.
  simpl. by rewrite (N_move_each _ _ _ Hm).
Qed.

Lemma length_randomise draw s s' :
  randomise draw s = Some s' → length (buttons s') = length (buttons s).
Proof.
  intros (picks & s1 & _ & Hm & ->)%randomise_inv.
  simpl. by rewrite (length_move_each _ _ _ Hm).
Qed.

(** ** Reset *)

Lemma reset_fresh s :
  length (buttons s) = length (buttons (init (N s))) →
  reset s = Some (fresh (N s) (dialogs s)).
Proof.
  intros Hlen. unfold reset. case_decide as Hz.
  - destruct Hz as [Hz Hne]. rewrite Hz in Hlen.
    by destruct (buttons s).
  - unfold fresh. do 2 f_equal.
    apply list_eq. intros i. rewrite list_lookup_imap.
    destruct (decide (i < length (buttons s))%nat) as [Hi|Hi].
    + destruct (lookup_lt_is_Some_2 _ _ Hi) as [q ->]. simpl.
      symmetry. apply lookup_init.
      rewrite Hlen, length_init in Hi.
      split; [nia|]. split; [lia | done].
    + rewrite (lookup_ge_None_2 (buttons s)) by lia.
      rewrite lookup_ge_None_2 by lia. done.
Qed.

Lemma reachable_shape (n : Z) s :
  reachable n s →
  N s = n ∧ length (buttons s) = length (buttons (init n)).
Proof.
  induction 1 as [|s b s' _ [IH1 IH2] Hm|s d s' _ [IH1 IH2] Hr
                 |s s' _ [IH1 IH2] Hr].
  - done.
  - by rewrite (N_move _ _ _ Hm), (length_move _ _ _ Hm).
  - by rewrite (N_randomise _ _ _ Hr), (length_randomise _ _ _ Hr).
  - rewrite reset_fresh in Hr by (by rewrite IH1).
    injection Hr as <-. simpl. by rewrite IH1.
Qed.

Lemma reachable_valid (n : Z) s : 1 ≤ n → reachable n s → valid s.
Proof.
  intros Hn. induction 1 as [|s b s' Hs IH Hm|s d s' Hs IH Hr|s s' Hs IH Hr].
  - by apply valid_init.
  - by eapply valid_move.
  - by eapply valid_randomise.
  - destruct (reachable_shape _ _ Hs) as [HN Hlen].
    rewrite reset_fresh in Hr by (by rewrite HN).
    injection Hr as <-. rewrite HN.
    by apply (valid_ext (init n)), valid_init.
Qed.

(** ** Every move is a legal swap or nothing *)

Lemma slide_legal b p s :
  valid s → buttons s !! b = Some p →
  rtc (legal_swap (N s)) (config_of s) (config_of (slide b p s)).
Proof.
  intros Hs Hb. unfold slide.
  destruct (adjacent (vacant s) p) eqn:Hadj; [|done].
  apply rtc_once. unfold config_of. simpl.
  apply adjacent_one_step in Hadj.
  constructor; try done.
  - by apply (valid_buttons s Hs b).
  - by apply valid_vacant.
  - by apply valid_free.
Qed.

Lemma move_legal s b s' :
  valid s → move s b = Some s' →
  rtc (legal_swap (N s)) (config_of s) (config_of s').
Proof.
  intros Hs (p & Hp & ->)%move_inv.
  unfold config_of at 2. rewrite buttons_monitor, vacant_monitor.
  by apply slide_legal.
Qed.

Lemma move_each_legal picks s s' :
  valid s → move_each picks s = Some s' →
  rtc (legal_swap (N s)) (config_of s) (config_of s').
Proof.
  revert s. induction picks as [|b picks IH]; intros s Hs.
  - by intros [= <-].
  - intros (s1 & H1 & H2)%move_each_inv_cons.
    etrans; [by eapply move_legal|].
    rewrite <- (N_move _ _ _ H1). apply IH; [|done].
    by eapply valid_move.
Qed.

Lemma randomise_legal draw s s' :
  valid s → randomise draw s = Some s' →
  rtc (legal_swap (N s)) (config_of s) (config_of s').
Proof.
  intros Hs (picks & s1 & _ & Hm & ->)%randomise_inv.
  apply (move_each_legal picks (set_monitor_status false s) s1); [|done].
  by apply (valid_ext s).
Qed.

Lemma valid_nonempty s : 2 ≤ N s → valid s → buttons s ≠ [].
Proof.
  intros Hn Hs Hnil. pose proof (valid_length s Hs) as Hl.
  rewrite Hnil in Hl. simpl in Hl. nia.
Qed.

Lemma randomise_each_legal draws s :
  2 ≤ N s → valid s →
  ∃ s', randomise_each draws s = Some s'
        ∧ rtc (legal_swap (N s)) (config_of s) (config_of s').
Proof.
  revert s. induction draws as [|d draws IH]; intros s Hn Hs.
  - by exists s.
  - destruct (randomise_Some d s (valid_nonempty s Hn Hs))
      as (picks & s1 & _ & _ & _ & _ & Hr).
    set (s2 := set_count_label _ _) in Hr.
    assert (HN : N s2 = N s) by (by eapply N_randomise).
    destruct (IH s2) as (s' & Hs' & Hrtc).
    { by rewrite HN. }
    { by eapply valid_randomise. }
    exists s'. split.
    + simpl. rewrite Hr. done.
    + etrans; [by eapply randomise_legal|]. by rewrite <- HN.
Qed.

(** The effect of a click on the placement, shared by several claims. *)
Lemma move_grid (s : puzzle) (b : nat) (p : pos) :
  buttons s !! b = Some p →
  ∃ s', move s b = Some s'
    ∧ (buttons s' ≠ buttons s ↔ one_step p (vacant s))
    ∧ (one_step p (vacant s) →
         buttons s' !! b = Some (vacant s)
         ∧ (∀ k, k ≠ b → buttons s' !! k = buttons s !! k)
         ∧ vacant s' = p)
    ∧ (¬ one_step p (vacant s) →
         buttons s' = buttons s ∧ vacant s' = vacant s).
Proof.
  intros Hb. exists (monitor (slide b p s)).
  split; [by apply move_Some|].
  rewrite buttons_monitor, vacant_monitor. unfold slide.
  assert (Hlt : (b < length (buttons s))%nat)
    by (apply lookup_lt_is_Some; eauto).
  destruct (adjacent (vacant s) p) eqn:Hadj.
  - apply adjacent_one_step in Hadj. simpl.
    split; [|split]; [| |tauto].
    + split; [done|]. intros _ E.
      assert (Hv : buttons s !! b = Some (vacant s))
        by (rewrite <- E; by apply list_lookup_insert_eq).
      apply (one_step_ne _ _ Hadj). congruence.
    + intros _. split; [by apply list_lookup_insert_eq|]. split; [|done].
      intros k Hk. by apply list_lookup_insert_ne.
  - apply adjacent_false in Hadj. tauto.
Qed.

(** ** The completion test *)

Lemma forallb_imap {A} (f : nat → A → bool) (l : list A) :
  forallb id (imap f l) = true ↔ ∀ k x, l !! k = Some x → f k x = true.
Proof.
  revert f. induction l as [|a l IH]; intros f; simpl.
  - split; [|done]. intros _ k x. by rewrite lookup_nil.
  - rewrite andb_true_iff, IH. split.
    + intros [Ha Hl] [|k] x; simpl; [by intros [= <-]|]. apply Hl.
    + intros H. split; [by apply (H 0%nat)|].
      intros k x Hk. by apply (H (S k)).
Qed.

Lemma all_home_index (n : Z) (bs : list pos) :
  all_home n bs = true ↔
  ∀ k p, bs !! k = Some p → Z.of_nat k = p.1 * n + p.2.
Proof.
  unfold all_home. rewrite forallb_imap.
  split; intros H k p Hk; specialize (H k p Hk).
  - by apply bool_decide_eq_true in H.
  - by apply bool_decide_eq_true.
Qed.

Lemma all_home_init (n : Z) : all_home n (buttons (init n)) = true.
Proof.
  apply all_home_index. intros k p (_ & Hn & ->)%lookup_init.
  by rewrite home_index.
Qed.

Lemma all_home_identity (n : Z) (bs : list pos) :
  (∀ k p, bs !! k = Some p → in_grid n p) →
  length bs = length (buttons (init n)) →
  all_home n bs = true ↔ bs = buttons (init n).
Proof.
  intros Hgrid Hlen. split; [|intros ->; apply all_home_init].
  rewrite all_home_index. intros Hidx.
  apply list_eq. intros i.
  destruct (decide (i < length bs)%nat) as [Hi|Hi].
  - destruct (lookup_lt_is_Some_2 _ _ Hi) as [p Hp]. rewrite Hp.
    symmetry. apply lookup_init.
    pose proof (Hgrid i p Hp) as Hin.
    rewrite Hlen, length_init in Hi.
    split; [nia|]. split; [unfold in_grid in Hin; lia|].
    apply index_home; auto.
  - rewrite (lookup_ge_None_2 bs) by lia.
    rewrite lookup_ge_None_2 by lia. done.
Qed.

Lemma one_swap_not_home (n : Z) (c : config) :
  legal_swap n (config_of (init n)) c ∨ legal_swap n c (config_of (init n)) →
  all_home n c.1 = false.
Proof.
  unfold config_of. intros Hswap.
  remember (buttons (init n)) as bs0 eqn:Hbs0.
  assert (Hv0 : vacant (init n) = (n - 1, n - 1)) by done.
  remember (vacant (init n)) as v0 eqn:Hv0'. clear Hv0'.
  apply not_true_is_false. intros Hall.
  rewrite all_home_index in Hall.
  destruct Hswap as [Hswap|Hswap];
    inversion Hswap as [bs v k p Hk Hp Hv Hf Hs E1 E2];
    subst; cbn [fst snd] in *.
  - apply lookup_init in Hk as (Hk & Hn & ->).
    specialize (Hall k (n - 1, n - 1)).
    rewrite list_lookup_insert_eq in Hall
      by (rewrite length_init; nia).
    specialize (Hall eq_refl). cbn [fst snd] in Hall. nia.
  - assert (Hlt : (k < length (buttons (init n)))%nat).
    { rewrite <- E2, length_insert. apply lookup_lt_is_Some. eauto. }
    rewrite length_init in Hlt.
    specialize (Hall k _ Hk). cbn [fst snd] in Hall.
    unfold in_grid in Hp. cbn [fst snd] in Hp. nia.
Qed.

(** ** The monitored half of a move *)

Lemma monitor_on s :
  monitor_status s = true →
  moves (monitor s) = moves s + 1
  ∧ count_label (monitor s) = moves_text (moves s + 1)
  ∧ (all_home (N s) (buttons s) = true →
       monitor_status (monitor s) = false
       ∧ dialogs (monitor s)
         = dialogs s ++ [("Puzzle Solved!", solved_message (moves s + 1))])
  ∧ (all_home (N s) (buttons s) = false →
       monitor_status (monitor s) = true ∧ dialogs (monitor s) = dialogs s).
Proof.
  intros Hm. unfold monitor. rewrite Hm. simpl.
  by destruct (all_home (N s) (buttons s)).
Qed.

Lemma move_dialogs s b s' :
  move s b = Some s' →
  (dialogs s' = dialogs s ∧ moves s ≤ moves s')
  ∨ (dialogs s' = dialogs s ++ [("Puzzle Solved!", solved_message (moves s + 1))]
     ∧ monitor_status s' = false).
Proof.
  intros (p & Hp & ->)%move_inv.
  destruct (monitor_status s) eqn:Hm.
  - destruct (monitor_on (slide b p s)) as (Hmv & _ & Hyes & Hno).
    { by rewrite monitor_status_slide. }
    rewrite moves_slide, dialogs_slide in *.
    destruct (all_home (N (slide b p s)) (buttons (slide b p s))).
    + right. by destruct (Hyes eq_refl).
    + left. destruct (Hno eq_refl) as [_ ->]. split; [done | lia].
  - left. rewrite monitor_off by (by rewrite monitor_status_slide).
    by rewrite dialogs_slide, moves_slide.
Qed.

Lemma move_each_dialogs picks s s' :
  move_each picks s = Some s' →
  (dialogs s' = dialogs s ∧ moves s ≤ moves s')
  ∨ (∃ k, moves s < k
          ∧ dialogs s' = dialogs s ++ [("Puzzle Solved!", solved_message k)]).
Proof.
  revert s. induction picks as [|b picks IH]; intros s.
  - intros [= <-]. left. split; [done | lia].
  - intros (s1 & H1 & H2)%move_each_inv_cons.
    destruct (move_dialogs _ _ _ H1) as [[Hd Hle]|[Hd Hoff]].
    + destruct (IH _ H2) as [[Hd' Hle']|(k & Hk & Hd')].
      * left. split; [congruence | lia].
      * right. exists k. split; [lia | congruence].
    + right. exists (moves s + 1). split; [lia|].
      destruct (move_each_unmonitored _ _ _ Hoff H2) as (_ & _ & -> & _).
      done.
Qed.

(** ** The loop of [randomise] *)

Lemma randomise_loop draw s :
  buttons s ≠ [] →
  ∃ picks s1,
    choices draw (length (buttons s)) (Z.to_nat (1000 * N s)) = Some picks
    ∧ length picks = Z.to_nat (1000 * N s)
    ∧ Forall (λ b, (b < length (buttons s))%nat) picks
    ∧ (∀ j, ∃ sj,
         move_each (take j picks) (set_monitor_status false s) = Some sj
         ∧ monitor_status sj = false ∧ moves sj = moves s
         ∧ dialogs sj = dialogs s ∧ count_label sj = count_label s)
    ∧ move_each picks (set_monitor_status false s) = Some s1
    ∧ randomise draw s
      = Some (set_count_label "moves: 0"
                (set_moves 0 (set_monitor_status true s1))).
Proof.
  intros Hne.
  destruct (randomise_Some draw s Hne) as (picks & s1 & Hc & Hl & Hall & Hm & Hr).
  exists picks, s1. repeat split; try done.
  intros j.
  destruct (move_each_Some (take j picks) (set_monitor_status false s))
    as [sj Hsj]; [by apply Forall_take|].
  exists sj. split; [done|].
  by apply (move_each_unmonitored (take j picks) (set_monitor_status false s)).
Qed.

(** ** One concrete game *)

Lemma randomise_seven_first :
  randomise seven_first (init 3) = Some shuffled_once.
Proof. vm_compute. reflexivity. Qed.

Lemma move_shuffled_once_7 : move shuffled_once 7 = Some solved_once.
Proof. vm_compute. reflexivity. Qed.

Lemma reachable_shuffled_once : reachable 3 shuffled_once.
Proof.
  eapply reachable_randomise; [apply reachable_init|].
  apply randomise_seven_first.
Qed.

Lemma reachable_solved_once : reachable 3 solved_once.
Proof.
  eapply reachable_move; [apply reachable_shuffled_once|].
  apply move_shuffled_once_7.
Qed.

(** ** Claims *)

(** C1: a click on the button standing on cell [p] raises no error; it
    changes the placement of the buttons iff [p] is exactly one adjacency
    step from the vacant cell.  When it is, the clicked tile goes to the
    old vacant cell, every other tile stays, and [p] becomes the vacant
    cell; when it is not, the placement and the vacancy are unchanged. *)
Theorem move_legality (s : puzzle) (b : nat) (p : pos) :
  buttons s !! b = Some p →
  ∃ s', move s b = Some s'
    ∧ (buttons s' ≠ buttons s ↔ one_step p (vacant s))
    ∧ (one_step p (vacant s) →
         buttons s' !! b = Some (vacant s)
         ∧ (∀ k, k ≠ b → buttons s' !! k = buttons s !! k)
         ∧ vacant s' = p)
    ∧ (¬ one_step p (vacant s) →
         buttons s' = buttons s ∧ vacant s' = vacant s).
Proof. apply move_grid. Qed.

Lemma move_legality_witness :
  ∃ s', move (init 3) 7 = Some s'
    ∧ (buttons s' ≠ buttons (init 3) ↔ one_step (2, 1) (vacant (init 3)))
    ∧ (one_step (2, 1) (vacant (init 3)) →
         buttons s' !! 7%nat = Some (vacant (init 3))
         ∧ (∀ k, k ≠ 7%nat → buttons s' !! k = buttons (init 3) !! k)
         ∧ vacant s' = (2, 1))
    ∧ (¬ one_step (2, 1) (vacant (init 3)) →
         buttons s' = buttons (init 3) ∧ vacant s' = vacant (init 3)).
Proof. apply (move_legality (init 3) 7 (2, 1)). reflexivity. Defined.

(** C2: pressing Start any number of times on a freshly built board of
    size [n >= 2] succeeds, and the placement it ends in is reachable
    from the identity placement by finitely many swaps of the vacancy
    with a tile on a neighbouring cell. *)
Theorem shuffle_reachable (n : Z) (draws : list (nat → nat)) :
  2 ≤ n →
  ∃ s, randomise_each draws (init n) = Some s
       ∧ rtc (legal_swap n) (config_of (init n)) (config_of s).
Proof.
  intros Hn.
  apply (randomise_each_legal draws (init n)); [done|].
  apply valid_init. lia.
Qed.

Lemma shuffle_reachable_witness :
  ∃ s, randomise_each [λ i, i; λ i, (2 * i)%nat] (init 3) = Some s
       ∧ rtc (legal_swap 3) (config_of (init 3)) (config_of s).
Proof. apply (shuffle_reachable 3); lia. Defined.

(** C4: in every state reachable from the constructor (board size at
    least 1) by clicks on tiles, Start and Reset, exactly one cell of
    the grid carries no tile, it is the cell cached in [vacant], every
    other cell carries exactly one tile, and each of the [n * n - 1]
    tiles stands on a cell of the grid. *)
Theorem board_invariant (n : Z) (s : puzzle) :
  1 ≤ n → reachable n s →
  in_grid n (vacant s)
  ∧ (∀ p, in_grid n p → (∀ k, buttons s !! k ≠ Some p) ↔ p = vacant s)
  ∧ (∀ p, in_grid n p → p ≠ vacant s →
       ∃ k, buttons s !! k = Some p
            ∧ ∀ j, buttons s !! j = Some p → j = k)
  ∧ length (buttons s) = Z.to_nat (n * n - 1)
  ∧ (∀ k, (k < Z.to_nat (n * n - 1))%nat →
       ∃ p, buttons s !! k = Some p ∧ in_grid n p).
Proof.
  intros Hn Hr.
  destruct (reachable_shape n s Hr) as [HN _].
  destruct (reachable_valid n s Hn Hr) as [H1 H2 H3 H4 H5 H6].
  rewrite HN in *.
  split; [done|]. split; [|split; [|split; [done|]]].
  - intros p Hp. split.
    + intros Hfree. destruct (decide (p = vacant s)) as [|Hne]; [done|].
      destruct (H6 p Hp Hne) as [k Hk]. by destruct (Hfree k).
    + intros -> k. apply H4.
  - intros p Hp Hne. destruct (H6 p Hp Hne) as [k Hk].
    exists k. split; [done|]. intros j Hj. by apply (H5 j k p).
  - intros k Hk. rewrite <- H1 in Hk.
    apply lookup_lt_is_Some in Hk as [p Hp]. exists p. split; [done|].
    by apply (H3 k).
Qed.

Lemma board_invariant_witness :
  in_grid 3 (vacant (init 3))
  ∧ (∀ p, in_grid 3 p →
       (∀ k, buttons (init 3) !! k ≠ Some p) ↔ p = vacant (init 3))
  ∧ (∀ p, in_grid 3 p → p ≠ vacant (init 3) →
       ∃ k, buttons (init 3) !! k = Some p
            ∧ ∀ j, buttons (init 3) !! j = Some p → j = k)
  ∧ length (buttons (init 3)) = Z.to_nat (3 * 3 - 1)
  ∧ (∀ k, (k < Z.to_nat (3 * 3 - 1))%nat →
       ∃ p, buttons (init 3) !! k = Some p ∧ in_grid 3 p).
Proof. apply (board_invariant 3 (init 3)); [lia | constructor]. Defined.

(** C3: after a click while the game is monitored, the completion test
    holds iff the placement is the identity placement (tile [k] on cell
    [(k div n, k mod n)]); when it holds, monitoring is switched off and
    one dialog reporting the final move count is opened, otherwise
    monitoring stays on and no dialog is opened; the test fails on every
    placement one swap away from the identity. *)
Theorem solved_detection (n : Z) (s : puzzle) (b : nat) (s' : puzzle) :
  reachable n s → monitor_status s = true → move s b = Some s' →
  (all_home n (buttons s') = true ↔ buttons s' = buttons (init n))
  ∧ (∀ k p, buttons (init n) !! k = Some p
            ↔ Z.of_nat k < n * n - 1 ∧ p = home n k)
  ∧ (buttons s' = buttons (init n) →
       monitor_status s' = false
       ∧ dialogs s'
         = dialogs s ++ [("Puzzle Solved!", solved_message (moves s'))])
  ∧ (buttons s' ≠ buttons (init n) →
       monitor_status s' = true ∧ dialogs s' = dialogs s)
  ∧ (∀ c, legal_swap n (config_of (init n)) c
          ∨ legal_swap n c (config_of (init n)) →
          all_home n c.1 = false).
Proof.
  intros Hr Hm Hmv.
  destruct (reachable_shape n s Hr) as [HN Hlen].
  destruct (move_inv _ _ _ Hmv) as (p & Hp & ->).
  assert (Hn : 2 ≤ n).
  { assert (Hb : (b < length (buttons s))%nat)
      by (apply lookup_lt_is_Some; eauto).
    rewrite Hlen, length_init in Hb. nia. }
  assert (Hv : valid (slide b p s)).
  { apply valid_slide; [|done]. apply (reachable_valid n); [lia | done]. }
  assert (Hid : all_home n (buttons (slide b p s)) = true
                ↔ buttons (slide b p s) = buttons (init n)).
  { apply all_home_identity.
    - intros k q Hq. rewrite <- HN, <- (N_slide b p s).
      by apply (valid_buttons _ Hv k).
    - by rewrite length_slide. }
  destruct (monitor_on (slide b p s)) as (Hmoves & _ & Hyes & Hno).
  { by rewrite monitor_status_slide. }
  rewrite N_slide, HN, dialogs_slide, <- Hmoves in Hyes.
  rewrite N_slide, HN, dialogs_slide in Hno.
  rewrite buttons_monitor.
  split; [done|]. split.
  { intros k q. rewrite lookup_init. intuition lia. }
  split; [intros E; by apply Hyes, Hid|].
  split; [|apply one_swap_not_home].
  intros E. apply Hno, not_true_is_false. by rewrite Hid.
Qed.

Lemma solved_detection_witness :
  reachable 3 shuffled_once
  ∧ monitor_status shuffled_once = true
  ∧ move shuffled_once 7 = Some solved_once
  ∧ (all_home 3 (buttons solved_once) = true
     ↔ buttons solved_once = buttons (init 3)).
Proof.
  split; [apply reachable_shuffled_once|].
  split; [reflexivity|]. split; [vm_compute; reflexivity|].
  apply (solved_detection 3 shuffled_once 7 solved_once).
  - apply reachable_shuffled_once.
  - reflexivity.
  - vm_compute. reflexivity.
Defined.

Lemma move_each_trace picks s s1 :
  monitor_status s = false → move_each picks s = Some s1 →
  ∃ trace,
    length trace = S (length picks)
    ∧ trace !! 0%nat = Some s
    ∧ last trace = Some s1
    ∧ (∀ j b, picks !! j = Some b →
         ∃ sj sj', trace !! j = Some sj ∧ trace !! S j = Some sj'
                   ∧ move sj b = Some sj')
    ∧ (∀ j sj, trace !! j = Some sj →
         monitor_status sj = false ∧ moves sj = moves s
         ∧ dialogs sj = dialogs s ∧ count_label sj = count_label s).
Proof.
  revert s. induction picks as [|b picks IH]; intros s Hoff.
  - intros [= <-]. exists [s]. do 3 (split; [done|]). split.
    + intros j b. by rewrite lookup_nil.
    + intros j sj Hj. destruct j as [|j]; simpl in Hj.
      * by injection Hj as <-.
      * by rewrite lookup_nil in Hj.
  - intros (s' & Hm & Hrest)%move_each_inv_cons.
    destruct (move_unmonitored _ _ _ Hoff Hm) as (Hoff' & Hmv & Hd & Hc).
    destruct (IH s' Hoff' Hrest) as (trace & Hlen & H0 & Hlast & Hstep & Hinv).
    exists (s :: trace). split; [simpl; by rewrite Hlen|]. split; [done|].
    split; [by rewrite last_cons, Hlast|]. split.
    + intros [|j] c; simpl.
      * intros [= <-]. by exists s, s'.
      * apply Hstep.
    + intros [|j] sj; simpl.
      * by intros [= <-].
      * intros Hj. destruct (Hinv j sj Hj) as (? & ? & ? & ?).
        repeat split; congruence.
Qed.

Lemma one_residue (n b base k : nat) :
  (b < n)%nat → (k ≤ n)%nat → (base `mod` n = 0)%nat →
  length (filter (λ d, (d `mod` n)%nat = b) (seq base k))
  = if decide (b < k)%nat then 1%nat else 0%nat.
Proof.
  intros Hb Hk Hbase. induction k as [|k IH]; [done|].
  rewrite seq_S, filter_app, length_app, IH by lia.
  rewrite filter_cons, filter_nil.
  assert (Hmod : ((base + k) `mod` n)%nat = k).
  { rewrite Nat.Div0.add_mod, Hbase by lia. simpl.
    rewrite Nat.Div0.mod_mod, Nat.mod_small by lia. done. }
  rewrite Hmod. repeat case_decide; simpl; lia.
Qed.

Lemma residues_even (n b m : nat) :
  (b < n)%nat →
  length (filter (λ d, (d `mod` n)%nat = b) (seq 0 (n * m))) = m.
Proof.
  intros Hb. induction m as [|m IH].
  - by rewrite Nat.mul_0_r.
  - rewrite Nat.mul_succ_r, seq_app, filter_app, length_app, IH.
    rewrite one_residue; [|done|done|].
    + rewrite decide_True by done. lia.
    + simpl. rewrite (Nat.mul_comm n m). apply Nat.Div0.mod_mul.
Qed.

Lemma choices_lookup draw (n k : nat) picks (j : nat) :
  choices draw n k = Some picks → (j < k)%nat →
  picks !! j = Some (draw j `mod` n)%nat.
Proof.
  unfold choices. case_decide; [done|]. intros [= <-] Hj.
  rewrite list_lookup_fmap, lookup_seq_lt by done. done.
Qed.

Lemma choices_any (n k : nat) (want : list nat) :
  length want = k → Forall (λ b, (b < n)%nat) want →
  ∃ draw, choices draw n k = Some want.
Proof.
  intros Hk Hall. exists (λ i, default 0%nat (want !! i)).
  unfold choices. rewrite decide_False.
  - f_equal. apply list_eq. intros i.
    rewrite list_lookup_fmap.
    destruct (decide (i < k)%nat) as [Hi|Hi].
    + rewrite lookup_seq_lt by done. simpl.
      destruct (lookup_lt_is_Some_2 want i) as [b Hb]; [lia|].
      rewrite Hb. simpl. f_equal. apply Nat.mod_small.
      rewrite Forall_forall in Hall. apply Hall.
      apply list_elem_of_lookup. eauto.
    + rewrite lookup_seq_ge by lia. simpl. symmetry.
      apply lookup_ge_None_2. lia.
  - intros [-> Hne]. destruct want as [|b want]; [simpl in Hk; lia|].
    apply Forall_cons in Hall as [Hb _]. lia.
Qed.

(** C5: [randomise] draws [1000 * N] buttons, pick [j] being button
    [draw j mod] the number of buttons, and runs through them in turn:
    starting from the state with monitoring switched off, every pick is
    one call of [move] on the state the previous call left, and after
    each of these calls monitoring is off and the move count, the label
    and the dialogs are those of the start.  [randomise] returns the
    state the last call left with the move count set to 0 and
    monitoring on, so it has opened no dialog.  The picks are uniform
    in the counting sense: every button is the pick of exactly one in
    [n] of the generator's values, and every sequence of buttons is
    the pick list of some draws. *)
Theorem randomise_iterations (draw : nat → nat) (s : puzzle) :
  buttons s ≠ [] →
  ∃ picks trace s1 s',
    choices draw (length (buttons s)) (Z.to_nat (1000 * N s)) = Some picks
    ∧ length picks = Z.to_nat (1000 * N s)
    ∧ (∀ j, (j < length picks)%nat →
         picks !! j = Some (draw j `mod` length (buttons s))%nat)
    ∧ Forall (λ b, (b < length (buttons s))%nat) picks
    ∧ length trace = S (length picks)
    ∧ trace !! 0%nat = Some (set_monitor_status false s)
    ∧ (∀ j b, picks !! j = Some b →
         ∃ sj sj', trace !! j = Some sj ∧ trace !! S j = Some sj'
                   ∧ move sj b = Some sj')
    ∧ (∀ j sj, trace !! j = Some sj →
         monitor_status sj = false ∧ moves sj = moves s
         ∧ dialogs sj = dialogs s ∧ count_label sj = count_label s)
    ∧ last trace = Some s1
    ∧ randomise draw s = Some s'
    ∧ s' = set_count_label "moves: 0"
             (set_moves 0 (set_monitor_status true s1))
    ∧ buttons s' = buttons s1 ∧ vacant s' = vacant s1
    ∧ moves s' = 0 ∧ monitor_status s' = true
    ∧ dialogs s' = dialogs s
    ∧ (∀ b m, (b < length (buttons s))%nat →
         length (filter (λ d, (d `mod` length (buttons s))%nat = b)
                        (seq 0 (length (buttons s) * m))) = m)
    ∧ (∀ want, length want = Z.to_nat (1000 * N s) →
         Forall (λ b, (b < length (buttons s))%nat) want →
         ∃ draw', choices draw' (length (buttons s))
                    (Z.to_nat (1000 * N s)) = Some want).
Proof.
  intros Hne.
  destruct (randomise_loop draw s Hne)
    as (picks & s1 & Hc & Hl & Hall & _ & Hm & Hr).
  destruct (move_each_trace picks (set_monitor_status false s) s1)
    as (trace & Hlen & H0 & Hlast & Hstep & Hinv); [done..|].
  exists picks, trace, s1,
    (set_count_label "moves: 0" (set_moves 0 (set_monitor_status true s1))).
  split; [done|]. split; [done|].
  split; [intros j Hj; apply (choices_lookup _ _ _ _ _ Hc); lia|].
  do 4 (split; [done|]). split; [exact Hinv|].
  do 7 (split; [done|]). split.
  { destruct (lookup_lt_is_Some_2 trace (length picks)) as [sl Hsl]; [lia|].
    assert (sl = s1) as ->.
    { rewrite last_lookup, Hlen in Hlast. simpl in Hlast. congruence. }
    by destruct (Hinv _ _ Hsl) as (_ & _ & ? & _). }
  split; [intros b m; apply residues_even|].
  intros want. apply choices_any.
Qed.

Lemma randomise_iterations_witness :
  buttons (init 3) ≠ []
  ∧ ∃ picks s',
      choices seven_first (length (buttons (init 3)))
        (Z.to_nat (1000 * N (init 3))) = Some picks
      ∧ length picks = Z.to_nat (1000 * N (init 3))
      ∧ randomise seven_first (init 3) = Some s'
      ∧ moves s' = 0 ∧ monitor_status s' = true
      ∧ dialogs s' = dialogs (init 3).
Proof.
  split; [vm_compute; discriminate|].
  destruct (randomise_iterations seven_first (init 3))
    as (picks & trace & s1 & s' & H1 & H2 & _ & _ & _ & _ & _ & _ & _
        & H3 & _ & _ & _ & H4 & H5 & H6 & _).
  - vm_compute. discriminate.
  - exists picks, s'. repeat split; assumption.
Defined.

(** C6, as the code has it: while the game is monitored every click on
    a tile adds exactly 1 to the move count, whether or not the tile
    moved; a click on a tile that is not next to the vacancy leaves the
    placement and the vacancy as they were. *)
Theorem click_counted (s : puzzle) (b : nat) (p : pos) :
  monitor_status s = true → buttons s !! b = Some p →
  ∃ s', move s b = Some s'
    ∧ moves s' = moves s + 1
    ∧ (¬ one_step p (vacant s) →
         buttons s' = buttons s ∧ vacant s' = vacant s).
Proof.
  intros Hm Hb. exists (monitor (slide b p s)).
  split; [by apply move_Some|].
  destruct (monitor_on (slide b p s)) as (Hmv & _).
  { by rewrite monitor_status_slide. }
  rewrite Hmv, moves_slide. split; [done|].
  intros Hfar%adjacent_false.
  rewrite buttons_monitor, vacant_monitor. unfold slide. by rewrite Hfar.
Qed.

Lemma click_counted_witness :
  monitor_status shuffled_once = true
  ∧ buttons shuffled_once !! 0%nat = Some (0, 0)
  ∧ ∃ s', move shuffled_once 0 = Some s'
      ∧ moves s' = moves shuffled_once + 1
      ∧ (¬ one_step (0, 0) (vacant shuffled_once) →
           buttons s' = buttons shuffled_once
           ∧ vacant s' = vacant shuffled_once).
Proof.
  split; [reflexivity|]. split; [reflexivity|].
  apply (click_counted shuffled_once 0 (0, 0)); reflexivity.
Defined.

(** C6 as the claim words it fails: on the monitored 3 by 3 board with
    the vacancy at (2,1), a click on tile 0 at (0,0), which is not next
    to the vacancy, changes the move count. *)
Lemma idle_click_counted :
  ¬ (∀ s b p s',
       reachable 3 s → monitor_status s = true →
       buttons s !! b = Some p → ¬ one_step p (vacant s) →
       move s b = Some s' → moves s' = moves s).
Proof.
  intros H.
  specialize (H shuffled_once 0%nat (0, 0)
                (monitor (slide 0 (0, 0) shuffled_once))
                reachable_shuffled_once eq_refl eq_refl).
  assert (Hfar : ¬ one_step (0, 0) (vacant shuffled_once))
    by (unfold one_step; simpl; lia).
  specialize (H Hfar eq_refl). vm_compute in H. discriminate.
Qed.

(** C7, as the code has it: once the solved dialog has been shown, and
    however many tiles are clicked after it, a further click raises no
    error, leaves the move count, the counter label and the dialogs as
    they were and monitoring off; the placement and the vacancy still
    change exactly when the tile is next to the vacancy: then the tile
    goes to the vacant cell, the other tiles stay and the cell of the
    tile becomes the vacancy; otherwise both are unchanged. *)
Theorem solved_state_click (s0 : puzzle) (b0 : nat) (s : puzzle)
    (later : list nat) (s1 : puzzle) (b : nat) (p : pos) :
  move s0 b0 = Some s → dialogs s ≠ dialogs s0 →
  move_each later s = Some s1 → buttons s1 !! b = Some p →
  ∃ s2, move s1 b = Some s2
    ∧ moves s2 = moves s ∧ count_label s2 = count_label s
    ∧ dialogs s2 = dialogs s ∧ monitor_status s2 = false
    ∧ (buttons s2 ≠ buttons s1 ↔ one_step p (vacant s1))
    ∧ (vacant s2 ≠ vacant s1 ↔ one_step p (vacant s1))
    ∧ (one_step p (vacant s1) →
         buttons s2 !! b = Some (vacant s1)
         ∧ (∀ k, k ≠ b → buttons s2 !! k = buttons s1 !! k)
         ∧ vacant s2 = p)
    ∧ (¬ one_step p (vacant s1) →
         buttons s2 = buttons s1 ∧ vacant s2 = vacant s1).
Proof.
  intros Hfire Hnew Hlater Hb.
  assert (Hoff : monitor_status s = false).
  { destruct (move_dialogs _ _ _ Hfire) as [[Hd _]|[_ Hoff]]; [|done].
    by destruct Hnew. }
  destruct (move_each_unmonitored _ _ _ Hoff Hlater)
    as (Hoff1 & Hm1 & Hd1 & Hc1).
  destruct (move_grid s1 b p Hb) as (s2 & Hmv & Hiff & Hnear & Hfar).
  exists s2. split; [done|].
  destruct (move_unmonitored _ _ _ Hoff1 Hmv) as (Hoff2 & Hm2 & Hd2 & Hc2).
  do 4 (split; [congruence|]). split; [done|]. split; [|by split].
  split.
  - intros Hv. destruct (decide (one_step p (vacant s1))) as [|Hno];
      [done|]. by destruct (Hfar Hno) as [_ ?].
  - intros Hstep. destruct (Hnear Hstep) as (_ & _ & ->).
    by apply one_step_ne.
Qed.

Lemma solved_state_click_witness :
  move shuffled_once 7 = Some solved_once
  ∧ dialogs solved_once ≠ dialogs shuffled_once
  ∧ move_each [0%nat] solved_once = Some solved_once
  ∧ buttons solved_once !! 7%nat = Some (2, 1)
  ∧ ∃ s2, move solved_once 7 = Some s2
      ∧ moves s2 = moves solved_once
      ∧ count_label s2 = count_label solved_once
      ∧ dialogs s2 = dialogs solved_once ∧ monitor_status s2 = false
      ∧ (buttons s2 ≠ buttons solved_once
         ↔ one_step (2, 1) (vacant solved_once))
      ∧ (vacant s2 ≠ vacant solved_once
         ↔ one_step (2, 1) (vacant solved_once))
      ∧ (one_step (2, 1) (vacant solved_once) →
           buttons s2 !! 7%nat = Some (vacant solved_once)
           ∧ (∀ k, k ≠ 7%nat → buttons s2 !! k = buttons solved_once !! k)
           ∧ vacant s2 = (2, 1))
      ∧ (¬ one_step (2, 1) (vacant solved_once) →
           buttons s2 = buttons solved_once
           ∧ vacant s2 = vacant solved_once).
Proof.
  split; [vm_compute; reflexivity|]. split; [vm_compute; discriminate|].
  split; [vm_compute; reflexivity|]. split; [reflexivity|].
  apply (solved_state_click shuffled_once 7 solved_once [0%nat]
           solved_once 7 (2, 1)).
  - vm_compute. reflexivity.
  - vm_compute. discriminate.
  - vm_compute. reflexivity.
  - reflexivity.
Defined.

(** C7 as the claim words it fails: right after the solved dialog on the
    3 by 3 board, a click on tile 7, next to the vacancy, moves it. *)
Lemma solved_click_moves_tile :
  ¬ (∀ s0 b0 s b s',
       reachable 3 s0 → move s0 b0 = Some s → dialogs s ≠ dialogs s0 →
       move s b = Some s' →
       buttons s' = buttons s ∧ vacant s' = vacant s ∧ moves s' = moves s).
Proof.
  intros H.
  specialize (H shuffled_once 7%nat solved_once 7%nat
                (monitor (slide 7 (2, 1) solved_once))
                reachable_shuffled_once move_shuffled_once_7).
  assert (Hnew : dialogs solved_once ≠ dialogs shuffled_once)
    by (vm_compute; discriminate).
  destruct (H Hnew eq_refl) as [Hgrid _].
  vm_compute in Hgrid. discriminate.
Qed.

(** C9: from every reachable state Reset succeeds and yields the
    identity placement the constructor builds, the vacancy in the last
    cell, a move count of 0 and monitoring off; a second Reset yields
    the same state again. *)
Theorem reset_identity (n : Z) (s : puzzle) :
  reachable n s →
  ∃ s', reset s = Some s'
    ∧ N s' = n
    ∧ buttons s' = buttons (init n)
    ∧ vacant s' = (n - 1, n - 1)
    ∧ moves s' = 0
    ∧ monitor_status s' = false
    ∧ count_label s' = "moves: 0"
    ∧ (∀ k p, buttons s' !! k = Some p → p = home n k)
    ∧ reset s' = Some s'.
Proof.
  intros Hr. destruct (reachable_shape n s Hr) as [HN Hlen].
  exists (fresh n (dialogs s)).
  split; [rewrite <- HN; apply reset_fresh; by rewrite HN|].
  repeat split.
  - by intros k p (_ & _ & ->)%lookup_init.
  - by rewrite reset_fresh.
Qed.

Lemma reset_identity_witness :
  reachable 3 shuffled_once
  ∧ ∃ s', reset shuffled_once = Some s'
      ∧ N s' = 3
      ∧ buttons s' = buttons (init 3)
      ∧ vacant s' = (3 - 1, 3 - 1)
      ∧ moves s' = 0
      ∧ monitor_status s' = false
      ∧ count_label s' = "moves: 0"
      ∧ (∀ k p, buttons s' !! k = Some p → p = home 3 k)
      ∧ reset s' = Some s'.
Proof.
  split; [apply reachable_shuffled_once|].
  apply (reset_identity 3 shuffled_once), reachable_shuffled_once.
Defined.

(** C10: [randomise] opens no dialog and leaves the move count alone
    after every one of its moves; it ends monitored with a move count of
    0 and the dialogs it started with.  Whatever is clicked afterwards,
    at most one solved dialog is added and the count it reports is at
    least 1; if the shuffle ended on the identity placement, a click on
    a tile away from the vacancy opens the dialog with a count of 1. *)
Theorem randomise_silent (draw : nat → nat) (s : puzzle) :
  buttons s ≠ [] →
  ∃ picks s',
    choices draw (length (buttons s)) (Z.to_nat (1000 * N s)) = Some picks
    ∧ randomise draw s = Some s'
    ∧ (∀ j, ∃ sj,
         move_each (take j picks) (set_monitor_status false s) = Some sj
         ∧ moves sj = moves s ∧ dialogs sj = dialogs s)
    ∧ dialogs s' = dialogs s ∧ monitor_status s' = true ∧ moves s' = 0
    ∧ (∀ later s'',
         move_each later s' = Some s'' →
         dialogs s'' = dialogs s
         ∨ ∃ k, 1 ≤ k
                ∧ dialogs s''
                  = dialogs s ++ [("Puzzle Solved!", solved_message k)])
    ∧ (buttons s' = buttons (init (N s')) →
       ∀ b p, buttons s' !! b = Some p → ¬ one_step p (vacant s') →
       ∃ s'', move s' b = Some s''
              ∧ moves s'' = 1
              ∧ dialogs s''
                = dialogs s ++ [("Puzzle Solved!", solved_message 1)]).
Proof.
  intros Hne.
  destruct (randomise_loop draw s Hne)
    as (picks & s1 & Hc & Hl & Hall & Hpre & Hm & Hr).
  destruct (move_each_unmonitored picks (set_monitor_status false s) s1)
    as (_ & _ & Hd1 & _); [done..|]. simpl in Hd1.
  set (s' := set_count_label "moves: 0"
               (set_moves 0 (set_monitor_status true s1))) in *.
  assert (Hd : dialogs s' = dialogs s) by done.
  exists picks, s'. split; [done|]. split; [done|].
  split.
  { intros j. destruct (Hpre j) as (sj & Hsj & _ & Hmj & Hdj & _). eauto. }
  split; [done|]. split; [done|]. split; [done|]. split.
  - intros later s'' Hlater.
    destruct (move_each_dialogs _ _ _ Hlater) as [[Hd' _]|(k & Hk & Hd')].
    + left. congruence.
    + right. exists k. rewrite <- Hd. split; [|done].
      change (moves s') with 0 in Hk. lia.
  - intros Hid b p Hb Hfar%adjacent_false.
    exists (monitor (slide b p s')). split; [by apply move_Some|].
    assert (Hstay : slide b p s' = s') by (unfold slide; by rewrite Hfar).
    rewrite Hstay.
    destruct (monitor_on s') as (Hmv & _ & Hyes & _); [done|].
    split; [by rewrite Hmv|].
    rewrite <- Hd. apply Hyes. rewrite Hid. apply all_home_init.
Qed.

Lemma randomise_silent_witness :
  buttons (init 3) ≠ []
  ∧ ∃ picks s',
      choices seven_first (length (buttons (init 3)))
        (Z.to_nat (1000 * N (init 3))) = Some picks
      ∧ randomise seven_first (init 3) = Some s'
      ∧ (∀ j, ∃ sj,
           move_each (take j picks) (set_monitor_status false (init 3))
           = Some sj
           ∧ moves sj = moves (init 3) ∧ dialogs sj = dialogs (init 3))
      ∧ dialogs s' = dialogs (init 3)
      ∧ monitor_status s' = true ∧ moves s' = 0.
Proof.
  split; [vm_compute; discriminate|].
  destruct (randomise_silent seven_first (init 3))
    as (picks & s' & H1 & H2 & H3 & H4 & H5 & H6 & _).
  - vm_compute. discriminate.
  - exists picks, s'. repeat split; assumption.
Defined.

(** ** Further properties of the game *)

Lemma buttons_slide b p s :
  buttons (slide b p s)
  = if adjacent (vacant s) p then <[b := vacant s]> (buttons s)
    else buttons s.
Proof. unfold slide. by destruct (adjacent _ _). Qed.

Lemma vacant_slide b p s :
  vacant (slide b p s) = if adjacent (vacant s) p then p else vacant s.
Proof. unfold slide. by destruct (adjacent _ _). Qed.

Lemma adjacent_sym (v p : pos) : adjacent p v = adjacent v p.
Proof.
  destruct (adjacent v p) eqn:E.
  - by apply adjacent_one_step, one_step_sym, adjacent_one_step.
  - apply adjacent_false. intros H%one_step_sym. by apply adjacent_false in E.
Qed.

Lemma same_board_refl s : same_board s s.
Proof. done. Qed.

Lemma same_board_monitor s : same_board (monitor s) s.
Proof.
  unfold same_board. by rewrite N_monitor, buttons_monitor, vacant_monitor.
Qed.

Lemma same_board_trans s t u :
  same_board s t → same_board t u → same_board s u.
Proof. unfold same_board. intros (-> & -> & ->) (-> & -> & ->). done. Qed.

Lemma same_board_sym s t : same_board s t → same_board t s.
Proof. unfold same_board. intros (-> & -> & ->). done. Qed.

Lemma move_same_board s t b s' :
  same_board s t → move s b = Some s' →
  ∃ t', move t b = Some t' ∧ same_board s' t'.
Proof.
  intros (HN & Hb & Hv) (p & Hp & ->)%move_inv.
  exists (monitor (slide b p t)).
  split; [apply move_Some; by rewrite <- Hb|].
  unfold same_board.
  rewrite !N_monitor, !buttons_monitor, !vacant_monitor, !N_slide,
    !buttons_slide, !vacant_slide, HN, Hb, Hv. done.
Qed.

Lemma move_each_same_board clicks s t s' :
  same_board s t → move_each clicks s = Some s' →
  ∃ t', move_each clicks t = Some t' ∧ same_board s' t'.
Proof.
  revert s t. induction clicks as [|b clicks IH]; intros s t Hst.
  - intros [= <-]. by exists t.
  - intros (s1 & H1 & H2)%move_each_inv_cons.
    destruct (move_same_board _ _ _ _ Hst H1) as (t1 & Ht1 & Hst1).
    destruct (IH _ _ Hst1 H2) as (t' & Ht' & Hst').
    exists t'. split; [|done]. simpl. by rewrite Ht1.
Qed.

Lemma move_twice s b p :
  buttons s !! b = Some p →
  ∃ s1 s2, move s b = Some s1 ∧ move s1 b = Some s2 ∧ same_board s2 s.
Proof.
  intros Hp.
  assert (Hlt : (b < length (buttons s))%nat)
    by (apply lookup_lt_is_Some; eauto).
  set (s1 := monitor (slide b p s)).
  assert (H1 : move s b = Some s1) by (by apply move_Some).
  assert (HN1 : N s1 = N s) by (by eapply N_move).
  destruct (adjacent (vacant s) p) eqn:Hadj.
  - assert (Hb1 : buttons s1 = <[b := vacant s]> (buttons s)).
    { unfold s1. by rewrite buttons_monitor, buttons_slide, Hadj. }
    assert (Hv1 : vacant s1 = p).
    { unfold s1. by rewrite vacant_monitor, vacant_slide, Hadj. }
    assert (Hp1 : buttons s1 !! b = Some (vacant s)).
    { rewrite Hb1. by apply list_lookup_insert_eq. }
    exists s1, (monitor (slide b (vacant s) s1)).
    split; [done|]. split; [by apply move_Some|].
    unfold same_board.
    rewrite N_monitor, buttons_monitor, vacant_monitor, N_slide,
      buttons_slide, vacant_slide, Hv1, adjacent_sym, Hadj, Hb1, HN1.
    split; [done|]. split; [|done].
    rewrite list_insert_insert_eq. by apply list_insert_id.
  - assert (Hs1 : same_board s1 s).
    { unfold s1, same_board.
      by rewrite N_monitor, buttons_monitor, vacant_monitor, N_slide,
        buttons_slide, vacant_slide, Hadj. }
    destruct (move_same_board s s1 b s1) as (s2 & H2 & Hs2);
      [by apply same_board_sym|done|].
    exists s1, s2. split; [done|]. split; [done|].
    eauto using same_board_trans, same_board_sym.
Qed.

(** A board that clicks can bring to the identity placement. *)
Lemma solvable_move s b s' :
  move s b = Some s' →
  (∃ clicks t, move_each clicks s = Some t ∧ same_board t (init (N s))) →
  ∃ clicks t, move_each clicks s' = Some t ∧ same_board t (init (N s')).
Proof.
  intros Hm (clicks & t & Hc & Ht).
  destruct (move_inv _ _ _ Hm) as (p & Hp & _).
  destruct (move_twice s b p Hp) as (s1 & s2 & H1 & H2 & Hs2).
  rewrite Hm in H1. injection H1 as <-.
  destruct (move_each_same_board clicks s s2 t) as (t' & Ht' & Htt');
    [by apply same_board_sym|done|].
  exists (b :: clicks), t'. split.
  - simpl. by rewrite H2.
  - rewrite (N_move _ _ _ Hm).
    eauto using same_board_trans, same_board_sym.
Qed.

Lemma solvable_move_each picks s s' :
  move_each picks s = Some s' →
  (∃ clicks t, move_each clicks s = Some t ∧ same_board t (init (N s))) →
  ∃ clicks t, move_each clicks s' = Some t ∧ same_board t (init (N s')).
Proof.
  revert s. induction picks as [|b picks IH]; intros s.
  - by intros [= <-].
  - intros (s1 & H1 & H2)%move_each_inv_cons Hs.
    apply (IH s1 H2). by eapply solvable_move.
Qed.

Lemma solvable_reachable (n : Z) s :
  reachable n s →
  ∃ clicks t, move_each clicks s = Some t ∧ same_board t (init (N s)).
Proof.
  induction 1 as [|s b s' Hs IH Hm|s d s' Hs IH Hr|s s' Hs IH Hr].
  - by exists [], (init n).
  - by eapply solvable_move.
  - destruct (randomise_inv _ _ _ Hr) as (picks & s1 & _ & Hm & ->).
    destruct (solvable_move_each picks (set_monitor_status false s) s1 Hm)
      as (clicks & t & Hc & Ht).
    { destruct IH as (clicks & t & Hc & Ht).
      destruct (move_each_same_board clicks s (set_monitor_status false s) t)
        as (t' & Ht' & Htt'); [done..|].
      exists clicks, t'. split; [done|].
      eauto using same_board_trans, same_board_sym. }
    destruct (move_each_same_board clicks s1
                (set_count_label "moves: 0"
                   (set_moves 0 (set_monitor_status true s1))) t)
      as (t' & Ht' & Htt'); [done..|].
    exists clicks, t'. split; [done|].
    eauto using same_board_trans, same_board_sym.
  - destruct (reachable_shape _ _ Hs) as [HN Hlen].
    rewrite reset_fresh in Hr by (by rewrite HN).
    injection Hr as <-. by exists [], (fresh (N s) (dialogs s)).
Qed.

Lemma move_monitored s b s' :
  monitor_status s = true → move s b = Some s' →
  moves s' = moves s + 1
  ∧ count_label s' = moves_text (moves s + 1)
  ∧ (all_home (N s) (buttons s') = true →
       monitor_status s' = false
       ∧ dialogs s'
         = dialogs s ++ [("Puzzle Solved!", solved_message (moves s + 1))])
  ∧ (all_home (N s) (buttons s') = false →
       monitor_status s' = true ∧ dialogs s' = dialogs s).
Proof.
  intros Hm (p & Hp & ->)%move_inv.
  destruct (monitor_on (slide b p s)) as (H1 & H2 & H3 & H4).
  { by rewrite monitor_status_slide. }
  rewrite buttons_monitor.
  rewrite N_slide, moves_slide, dialogs_slide in *. done.
Qed.

Lemma dialog_when_home clicks s s' :
  monitor_status s = true → clicks ≠ [] →
  move_each clicks s = Some s' →
  all_home (N s) (buttons s') = true →
  ∃ k, moves s < k
       ∧ dialogs s' = dialogs s ++ [("Puzzle Solved!", solved_message k)]
       ∧ monitor_status s' = false.
Proof.
  revert s. induction clicks as [|b clicks IH]; intros s Hm Hne; [done|].
  intros (s1 & H1 & H2)%move_each_inv_cons Hhome.
  destruct (move_monitored _ _ _ Hm H1) as (Hmv & _ & Hyes & Hno).
  destruct (all_home (N s) (buttons s1)) eqn:Hh1.
  - destruct (Hyes eq_refl) as [Hoff Hd].
    destruct (move_each_unmonitored _ _ _ Hoff H2) as (Hoff' & _ & Hd' & _).
    exists (moves s + 1). split; [lia|]. split; [congruence | done].
  - destruct (Hno eq_refl) as [Hon Hd].
    destruct clicks as [|c clicks].
    + injection H2 as <-. congruence.
    + destruct (IH s1 Hon) as (k & Hk & Hd' & Hoff'); [done..| |].
      { by rewrite (N_move _ _ _ H1). }
      exists k. split; [lia|]. split; [congruence | done].
Qed.

Lemma move_each_still_monitored clicks s s' :
  move_each clicks s = Some s' → monitor_status s' = true →
  monitor_status s = true
  ∧ moves s' = moves s + Z.of_nat (length clicks)
  ∧ dialogs s' = dialogs s.
Proof.
  revert s. induction clicks as [|b clicks IH]; intros s.
  - intros [= <-] Hon. simpl. split; [done|]. split; [lia | done].
  - intros (s1 & H1 & H2)%move_each_inv_cons Hon.
    destruct (IH _ H2 Hon) as (Hon1 & Hmv & Hd).
    destruct (monitor_status s) eqn:Hm.
    + destruct (move_monitored _ _ _ Hm H1) as (Hmv1 & _ & Hyes & Hno).
      destruct (all_home (N s) (buttons s1)).
      * destruct (Hyes eq_refl) as [Hoff _]. congruence.
      * destruct (Hno eq_refl) as [_ Hd1].
        split; [done|]. split; [|congruence].
        rewrite Hmv, Hmv1. simpl length. lia.
    + destruct (move_unmonitored _ _ _ Hm H1) as (Hoff & _). congruence.
Qed.

Lemma randomise_reachable_Some (n : Z) s draw :
  reachable n s → n ≠ 1 → is_Some (randomise draw s).
Proof.
  intros Hr Hn. destruct (reachable_shape n s Hr) as [HN Hlen].
  rewrite length_init in Hlen.
  destruct (decide (buttons s = [])) as [Hnil|Hne].
  - unfold randomise, choices. simpl. rewrite Hnil, HN. simpl.
    rewrite Hnil in Hlen. simpl in Hlen.
    assert (Hk : Z.to_nat (1000 * n) = 0%nat) by nia.
    rewrite Hk, decide_False by tauto. simpl. by eexists.
  - destruct (randomise_Some draw s Hne) as (? & ? & _ & _ & _ & _ & ->).
    by eexists.
Qed.

(** Clicking the same tile twice restores the board: whether or not the
    tile moved at the first click, after the second click every tile
    and the vacancy are where they were. *)
Theorem click_twice_restores (s : puzzle) (b : nat) (p : pos) :
  buttons s !! b = Some p →
  ∃ s1 s2, move s b = Some s1 ∧ move s1 b = Some s2
           ∧ buttons s2 = buttons s ∧ vacant s2 = vacant s.
Proof.
  intros Hp.
  destruct (move_twice s b p Hp) as (s1 & s2 & H1 & H2 & _ & Hb & Hv).
  by exists s1, s2.
Qed.

Lemma click_twice_restores_witness :
  buttons shuffled_once !! 7%nat = Some (2, 2)
  ∧ ∃ s1 s2, move shuffled_once 7 = Some s1 ∧ move s1 7 = Some s2
             ∧ buttons s2 = buttons shuffled_once
             ∧ vacant s2 = vacant shuffled_once.
Proof.
  split; [reflexivity|].
  apply (click_twice_restores shuffled_once 7 (2, 2)). reflexivity.
Defined.

(** Every state the game can reach can be solved: some finite sequence
    of clicks on tiles brings all tiles back to their home cells and the
    vacancy to the last cell. *)
Theorem every_state_solvable (n : Z) (s : puzzle) :
  reachable n s →
  ∃ clicks t, move_each clicks s = Some t
              ∧ buttons t = buttons (init n)
              ∧ vacant t = (n - 1, n - 1).
Proof.
  intros Hr. destruct (reachable_shape n s Hr) as [HN _].
  destruct (solvable_reachable n s Hr) as (clicks & t & Hc & _ & Hb & Hv).
  exists clicks, t. by rewrite Hb, Hv, HN.
Qed.

Lemma every_state_solvable_witness :
  reachable 3 shuffled_once
  ∧ ∃ clicks t, move_each clicks shuffled_once = Some t
                ∧ buttons t = buttons (init 3)
                ∧ vacant t = (3 - 1, 3 - 1).
Proof.
  split; [apply reachable_shuffled_once|].
  apply (every_state_solvable 3 shuffled_once), reachable_shuffled_once.
Defined.

(** Every monitored game can be won: from each reachable state with
    monitoring on (board size at least 2) there is a sequence of clicks
    after which the solved dialog has been shown once, monitoring is off
    and the tiles are in the identity placement. *)
Theorem monitored_game_winnable (n : Z) (s : puzzle) :
  2 ≤ n → reachable n s → monitor_status s = true →
  ∃ clicks t k,
    move_each clicks s = Some t
    ∧ moves s < k
    ∧ dialogs t = dialogs s ++ [("Puzzle Solved!", solved_message k)]
    ∧ monitor_status t = false
    ∧ buttons t = buttons (init n).
Proof.
  intros Hn Hr Hon. destruct (reachable_shape n s Hr) as [HN Hlen].
  destruct (solvable_reachable n s Hr) as (clicks & t0 & Hc & Ht0).
  assert (H0 : (0 < length (buttons s))%nat)
    by (rewrite Hlen, length_init; nia).
  apply lookup_lt_is_Some in H0 as [p Hp].
  destruct (move_twice s 0 p Hp) as (s1 & s2 & H1 & H2 & Hs2).
  destruct (move_each_same_board clicks s s2 t0) as (t & Ht & Htt);
    [by apply same_board_sym|done|].
  assert (Hb : buttons t = buttons (init n)).
  { destruct Htt as (_ & <- & _). destruct Ht0 as (_ & -> & _).
    by rewrite HN. }
  assert (Hrun : move_each (0%nat :: 0%nat :: clicks) s = Some t).
  { simpl. rewrite H1. simpl. rewrite H2. done. }
  destruct (dialog_when_home (0%nat :: 0%nat :: clicks) s t)
    as (k & Hk & Hd & Hoff); [done..| |].
  { rewrite Hb, HN. apply all_home_init. }
  by exists (0%nat :: 0%nat :: clicks), t, k.
Qed.

Lemma monitored_game_winnable_witness :
  2 ≤ 3 ∧ reachable 3 shuffled_once ∧ monitor_status shuffled_once = true
  ∧ ∃ clicks t k,
      move_each clicks shuffled_once = Some t
      ∧ moves shuffled_once < k
      ∧ dialogs t
        = dialogs shuffled_once ++ [("Puzzle Solved!", solved_message k)]
      ∧ monitor_status t = false
      ∧ buttons t = buttons (init 3).
Proof.
  split; [lia|]. split; [apply reachable_shuffled_once|].
  split; [reflexivity|].
  apply (monitored_game_winnable 3 shuffled_once);
    [lia | apply reachable_shuffled_once | reflexivity].
Defined.

(** In every reachable state the counter label shows the move count,
    and the move count is not negative. *)
Theorem label_shows_moves (n : Z) (s : puzzle) :
  reachable n s → count_label s = moves_text (moves s) ∧ 0 ≤ moves s.
Proof.
  induction 1 as [|s b s' Hs [IHl IHm] Hm|s d s' Hs IH Hr|s s' Hs IH Hr].
  - done.
  - destruct (monitor_status s) eqn:Hon.
    + destruct (move_monitored _ _ _ Hon Hm) as (-> & -> & _).
      split; [done | lia].
    + destruct (move_unmonitored _ _ _ Hon Hm) as (_ & -> & _ & ->). done.
  - by destruct (randomise_inv _ _ _ Hr) as (picks & s1 & _ & _ & ->).
  - destruct (reachable_shape _ _ Hs) as [HN Hlen].
    rewrite reset_fresh in Hr by (by rewrite HN).
    by injection Hr as <-.
Qed.

Lemma label_shows_moves_witness :
  reachable 3 solved_once
  ∧ count_label solved_once = moves_text (moves solved_once)
  ∧ 0 ≤ moves solved_once.
Proof.
  split; [apply reachable_solved_once|].
  apply (label_shows_moves 3 solved_once), reachable_solved_once.
Defined.

(** The move count is the number of clicks since Start, whether or not
    they moved a tile: if monitoring is still on after some clicks
    following Start, the count equals their number and no dialog was
    shown; the next click raises the count by one, and if it completes
    the board the dialog reports that count. *)
Theorem moves_count_clicks (draw : nat → nat) (s s0 s1 s2 : puzzle)
    (clicks : list nat) (b : nat) :
  randomise draw s = Some s0 →
  move_each clicks s0 = Some s1 → monitor_status s1 = true →
  move s1 b = Some s2 →
  moves s1 = Z.of_nat (length clicks)
  ∧ dialogs s1 = dialogs s
  ∧ moves s2 = Z.of_nat (length clicks) + 1
  ∧ (all_home (N s) (buttons s2) = true →
       monitor_status s2 = false
       ∧ dialogs s2
         = dialogs s ++ [("Puzzle Solved!",
                          solved_message (Z.of_nat (length clicks) + 1))])
  ∧ (all_home (N s) (buttons s2) = false →
       monitor_status s2 = true ∧ dialogs s2 = dialogs s).
Proof.
  intros Hr Hc Hon Hm.
  destruct (randomise_inv _ _ _ Hr) as (picks & t & _ & Ht & ->).
  destruct (move_each_unmonitored picks (set_monitor_status false s) t)
    as (_ & _ & Hdt & _); [done..|]. simpl in Hdt.
  destruct (move_each_still_monitored _ _ _ Hc Hon) as (_ & Hmv & Hd).
  simpl in Hmv, Hd.
  assert (HN1 : N s1 = N s).
  { rewrite (N_move_each _ _ _ Hc). simpl.
    by rewrite (N_move_each _ _ _ Ht). }
  destruct (move_monitored _ _ _ Hon Hm) as (Hmv2 & _ & Hyes & Hno).
  rewrite HN1, Hd, Hdt, Hmv in *.
  split; [lia|]. split; [done|]. split; [lia|].
  replace (0 + Z.of_nat (length clicks)) with (Z.of_nat (length clicks))
    in * by lia.
  done.
Qed.

Lemma moves_count_clicks_witness :
  randomise seven_first (init 3) = Some shuffled_once
  ∧ move_each [0%nat] shuffled_once
    = Some (set_count_label "moves: 1" (set_moves 1 shuffled_once))
  ∧ moves (set_count_label "moves: 1" (set_moves 1 shuffled_once))
    = Z.of_nat (length [0%nat])
  ∧ ∃ s2, move (set_count_label "moves: 1" (set_moves 1 shuffled_once)) 7
          = Some s2
          ∧ moves s2 = Z.of_nat (length [0%nat]) + 1
          ∧ dialogs s2
            = [("Puzzle Solved!", "You have solved the puzzle in 2 moves!")].
Proof.
  split; [vm_compute; reflexivity|]. split; [vm_compute; reflexivity|].
  split; [reflexivity|].
  eexists. split; [vm_compute; reflexivity|].
  destruct (moves_count_clicks seven_first (init 3) shuffled_once
              (set_count_label "moves: 1" (set_moves 1 shuffled_once))
              (monitor (slide 7 (2, 2)
                 (set_count_label "moves: 1" (set_moves 1 shuffled_once))))
              [0%nat] 7) as (_ & _ & Hmv & Hyes & _).
  - vm_compute. reflexivity.
  - vm_compute. reflexivity.
  - reflexivity.
  - vm_compute. reflexivity.
  - split; [exact Hmv|]. vm_compute. reflexivity.
Defined.

(** Start raises (the [IndexError] of [random.choices] on an empty
    population) on the boards of size 1 and on no other reachable
    board. *)
Theorem start_raises_iff_size_one (n : Z) (s : puzzle) (draw : nat → nat) :
  reachable n s → randomise draw s = None ↔ n = 1.
Proof.
  intros Hr. split.
  - intros Hnone. destruct (decide (n = 1)) as [|Hn]; [done|].
    destruct (randomise_reachable_Some n s draw Hr Hn) as [s' Hs'].
    congruence.
  - intros ->. destruct (reachable_shape 1 s Hr) as [HN Hlen].
    rewrite length_init in Hlen. simpl in Hlen.
    destruct (buttons s) eqn:Hb; [|done].
    unfold randomise, choices. simpl. rewrite Hb, HN. done.
Qed.

Lemma start_raises_iff_size_one_witness :
  reachable 1 (init 1)
  ∧ (randomise seven_first (init 1) = None ↔ 1 = 1).
Proof.
  split; [constructor|].
  apply (start_raises_iff_size_one 1 (init 1) seven_first). constructor.
Defined.

Lemma construct_inr (w : world) (image : string) (n : Z)
    (fs : gset string) (s : puzzle) :
  construct w image n = inr (fs, s) → s = init n.
Proof.
  unfold construct.
  destruct (load_each _ _); [done|].
  destruct (match (open_each (files w) (checked_files n)).2 with
            | Some FileNotFoundError => except_block w image n
            | other => (files w, other)
            end).2; [done|].
  by intros [= _ <-].
Qed.

(** Reset wipes out a preceding Start: pressing Reset after Start gives
    the very state Reset would have given before it. *)
Theorem reset_after_start (n : Z) (s s' : puzzle) (draw : nat → nat) :
  reachable n s → randomise draw s = Some s' → reset s' = reset s.
Proof.
  intros Hr Hs'. destruct (reachable_shape n s Hr) as [HN Hlen].
  assert (Hr' : reachable n s') by (by eapply reachable_randomise).
  destruct (reachable_shape n s' Hr') as [HN' Hlen'].
  rewrite !reset_fresh by (by rewrite ?HN, ?HN').
  rewrite HN, HN'. do 2 f_equal.
  destruct (randomise_inv _ _ _ Hs') as (picks & t & _ & Ht & ->).
  destruct (move_each_unmonitored picks (set_monitor_status false s) t)
    as (_ & _ & Hd & _); [done..|].
  exact Hd.
Qed.

Lemma reset_after_start_witness :
  reachable 3 (init 3)
  ∧ randomise seven_first (init 3) = Some shuffled_once
  ∧ reset shuffled_once = reset (init 3).
Proof.
  split; [constructor|]. split; [vm_compute; reflexivity|].
  apply (reset_after_start 3 (init 3) shuffled_once seven_first).
  - constructor.
  - vm_compute. reflexivity.
Defined.

(** ** Inversions and transpositions *)

Lemma inversions_app (l c : list Z) :
  inversions (l ++ c) = (inversions l + crossings l c + inversions c)%nat.
Proof.
  induction l as [|x l IH]; simpl; [done|].
  rewrite filter_app, length_app, IH. lia.
Qed.

Lemma crossings_perm_l (l1 l2 c : list Z) :
  l1 ≡ₚ l2 → crossings l1 c = crossings l2 c.
Proof. induction 1; simpl; lia. Qed.

Lemma crossings_perm_r (l c1 c2 : list Z) :
  c1 ≡ₚ c2 → crossings l c1 = crossings l c2.
Proof.
  intros Hc. induction l as [|x l IH]; simpl; [done|].
  by rewrite IH, Hc.
Qed.

Lemma crossings_single (l : list Z) (y : Z) :
  crossings l [y] = length (filter (λ b, y < b) l).
Proof.
  induction l as [|x l IH]; simpl; [done|].
  rewrite IH, filter_cons, (filter_cons _ x).
  repeat case_decide; simpl; lia.
Qed.

Lemma count_split (y : Z) (l : list Z) :
  y ∉ l →
  (length (filter (λ b, (b < y)%Z) l)
   + length (filter (λ b, (y < b)%Z) l))%nat
  = length l.
Proof.
  induction l as [|x l IH]; simpl; [done|].
  intros [Hne Hl]%not_elem_of_cons.
  rewrite !filter_cons. specialize (IH Hl).
  repeat case_decide; simpl; lia.
Qed.

Lemma exchange_ends_odd (x y : Z) (m : list Z) :
  x ≠ y → x ∉ m → y ∉ m →
  ∃ k, (inversions (x :: m ++ [y]) + inversions (y :: m ++ [x])
        = 2 * k + 1)%nat.
Proof.
  intros Hxy Hx Hy.
  exists (length m + inversions m)%nat. simpl.
  rewrite !filter_app, !length_app, !inversions_app, !crossings_single.
  pose proof (count_split x m Hx). pose proof (count_split y m Hy).
  simpl. rewrite !filter_cons, !filter_nil.
  repeat case_decide; simpl; lia.
Qed.

Lemma transposition_odd (a m c : list Z) (x y : Z) :
  x ≠ y → x ∉ m → y ∉ m →
  ∃ k, (inversions (a ++ x :: m ++ y :: c)
        + inversions (a ++ y :: m ++ x :: c) = 2 * k + 1)%nat.
Proof.
  intros Hxy Hx Hy.
  destruct (exchange_ends_odd x y m Hxy Hx Hy) as [k Hk].
  assert (Hp : x :: m ++ [y] ≡ₚ y :: m ++ [x]).
  { rewrite (Permutation_app_comm m [y]), (Permutation_app_comm m [x]).
    simpl. apply perm_swap. }
  replace (a ++ x :: m ++ y :: c) with (a ++ (x :: m ++ [y]) ++ c)
    by (simpl; by rewrite <- app_assoc).
  replace (a ++ y :: m ++ x :: c) with (a ++ (y :: m ++ [x]) ++ c)
    by (simpl; by rewrite <- app_assoc).
  rewrite !(inversions_app a), !(inversions_app (_ :: _ ++ [_]) c).
  rewrite (crossings_perm_r a _ ((y :: m ++ [x]) ++ c))
    by (by rewrite Hp).
  rewrite (crossings_perm_l _ (y :: m ++ [x]) c Hp).
  exists (inversions a + crossings a ((y :: m ++ [x]) ++ c)
          + crossings (y :: m ++ [x]) c + inversions c + k)%nat.
  lia.
Qed.

Lemma none_below (a : Z) (l : list Z) :
  (∀ y, y ∈ l → a < y) → filter (λ y, y < a) l = [].
Proof.
  induction l as [|x l IH]; intros Hall; [done|].
  rewrite filter_cons. case_decide as Hx.
  - pose proof (Hall x ltac:(by left)). lia.
  - apply IH. intros y Hy. apply Hall. by right.
Qed.

Lemma inversions_ascending (l : list Z) :
  (∀ i j x y, (i < j)%nat → l !! i = Some x → l !! j = Some y → x < y) →
  inversions l = 0%nat.
Proof.
  induction l as [|a l IH]; intros Hasc; simpl; [done|].
  rewrite IH.
  - rewrite none_below; [done|].
    intros y [j Hj]%list_elem_of_lookup.
    apply (Hasc 0%nat (S j)); [lia|done..].
  - intros i j x y Hij Hi Hj. apply (Hasc (S i) (S j)); [lia|done..].
Qed.

(** ** The arrangement of a well formed board *)

Lemma cell_number_inj (n : Z) (p q : pos) :
  in_grid n p → in_grid n q → cell_number n p = cell_number n q → p = q.
Proof.
  unfold in_grid, cell_number. destruct p as [r c], q as [r' c']; simpl.
  intros [Hr Hc] [Hr' Hc'] E.
  assert (r = r') by nia. subst r'. f_equal. lia.
Qed.

Lemma NoDup_buttons s : valid s → NoDup (buttons s).
Proof. intros Hs. apply NoDup_alt. intros i j p. apply (valid_inj s Hs). Qed.

Lemma NoDup_arrangement s : valid s → NoDup (arrangement s).
Proof.
  intros Hs. unfold arrangement. apply NoDup_app. split; [|split].
  - apply NoDup_fmap_2_strong; [|by apply NoDup_buttons].
    intros p q [i Hi]%list_elem_of_lookup [j Hj]%list_elem_of_lookup.
    apply cell_number_inj; by eapply valid_buttons.
  - intros x (p & -> & [i Hi]%list_elem_of_lookup)%list_elem_of_fmap.
    rewrite list_elem_of_singleton. intros E.
    apply cell_number_inj in E;
      [|by eapply valid_buttons|by apply valid_vacant].
    subst p. by apply (valid_free s Hs i).
  - apply NoDup_singleton.
Qed.

Lemma NoDup_two {X} (a m c : list X) (x y : X) :
  NoDup (a ++ x :: m ++ y :: c) → x ≠ y ∧ (x ∉ m) ∧ (y ∉ m).
Proof.
  intros (_ & _ & Hx)%NoDup_app.
  apply NoDup_cons in Hx as [Hx Hm].
  apply NoDup_app in Hm as (_ & Hm & _).
  rewrite elem_of_app, elem_of_cons in Hx.
  split; [naive_solver|]. split; [naive_solver|].
  intros Hy. apply (Hm y Hy). by left.
Qed.

Lemma insert_middle {X} (a r : list X) (x y : X) :
  <[length a := y]> (a ++ x :: r) = a ++ y :: r.
Proof. induction a as [|z a IH]; simpl; [done|]. by rewrite IH. Qed.

Lemma split_at {X} (l : list X) (i : nat) (p : X) :
  l !! i = Some p → ∃ a r, l = a ++ p :: r ∧ length a = i.
Proof.
  intros Hi. exists (take i l), (drop (S i) l).
  split; [by rewrite take_drop_middle|].
  rewrite length_take. apply lookup_lt_Some in Hi. lia.
Qed.

Lemma split_two {X} (l : list X) (i j : nat) (p q : X) :
  (i < j)%nat → l !! i = Some p → l !! j = Some q →
  ∃ a m c, l = a ++ p :: m ++ q :: c
           ∧ <[i := q]> (<[j := p]> l) = a ++ q :: m ++ p :: c.
Proof.
  intros Hij Hi Hj.
  destruct (split_at l i p Hi) as (a & r & -> & Ha).
  assert (Hr : r !! (j - S i)%nat = Some q).
  { rewrite lookup_app_r in Hj by lia.
    replace (j - length a)%nat with (S (j - S i)) in Hj by lia. done. }
  destruct (split_at r _ q Hr) as (m & c & -> & Hm).
  exists a, m, c. split; [done|].
  replace j with (length (a ++ p :: m))
    by (rewrite length_app; simpl; lia).
  replace (a ++ p :: m ++ q :: c) with ((a ++ p :: m) ++ q :: c)
    by (by rewrite <- app_assoc).
  rewrite insert_middle, <- app_assoc. simpl.
  rewrite <- Ha. apply insert_middle.
Qed.

Lemma slide_arrangement_odd b p s :
  valid s → buttons s !! b = Some p →
  ∃ k, (inversions (arrangement s)
        + inversions ((cell_number (N s) <$> <[b := vacant s]> (buttons s))
                      ++ [cell_number (N s) p])
        = 2 * k + 1)%nat.
Proof.
  intros Hs Hb. pose proof (NoDup_arrangement s Hs) as Hnd.
  unfold arrangement in *.
  destruct (split_at _ _ _ Hb) as (a & r & E & Ha).
  rewrite E in *. rewrite <- Ha, insert_middle.
  rewrite !fmap_app, !fmap_cons, <- !app_assoc in *. simpl in *.
  destruct (NoDup_two _ _ _ _ _ Hnd) as (Hxy & Hx & Hy).
  by apply transposition_odd.
Qed.

Lemma balanced_same_board s t : same_board s t → balanced s → balanced t.
Proof.
  unfold same_board, balanced, arrangement. by intros (-> & -> & ->).
Qed.

Lemma balanced_slide b p s :
  valid s → buttons s !! b = Some p → balanced s → balanced (slide b p s).
Proof.
  intros Hs Hb Hbal. unfold slide.
  destruct (adjacent (vacant s) p) eqn:Hadj; [|done].
  apply adjacent_one_step in Hadj.
  destruct (slide_arrangement_odd b p s Hs Hb) as [k Hk].
  unfold balanced in *. unfold arrangement at 1. simpl.
  unfold one_step in Hadj.
  destruct p as [pr pc], (vacant s) as [vr vc] eqn:Hv. simpl in *.
  Z.to_euclidean_division_equations. lia.
Qed.

Lemma balanced_move s b s' :
  valid s → move s b = Some s' → balanced s → balanced s'.
Proof.
  intros Hs (p & Hp & ->)%move_inv Hbal.
  apply (balanced_same_board (slide b p s));
    [by apply same_board_sym, same_board_monitor|].
  by apply balanced_slide.
Qed.

Lemma balanced_move_each picks s s' :
  valid s → move_each picks s = Some s' → balanced s → balanced s'.
Proof.
  revert s. induction picks as [|b picks IH]; intros s Hs.
  - by intros [= <-].
  - intros (s1 & H1 & H2)%move_each_inv_cons Hbal.
    apply (IH s1); eauto using valid_move, balanced_move.
Qed.

Lemma arrangement_init (n : Z) (i : nat) (x : Z) :
  1 ≤ n → arrangement (init n) !! i = Some x → x = Z.of_nat i.
Proof.
  intros Hn. unfold arrangement.
  change (N (init n)) with n. change (vacant (init n)) with (n - 1, n - 1).
  destruct (decide (i < length (buttons (init n)))%nat) as [Hi|Hi].
  - rewrite lookup_app_l by (by rewrite length_fmap).
    rewrite list_lookup_fmap.
    destruct (lookup_lt_is_Some_2 _ _ Hi) as [p Hp]. rewrite Hp. simpl.
    apply lookup_init in Hp as (_ & _ & ->). intros [= <-].
    apply home_index. lia.
  - rewrite lookup_app_r by (rewrite length_fmap; lia).
    rewrite length_fmap.
    destruct (i - length (buttons (init n)))%nat as [|d] eqn:Hd;
      simpl; [|done].
    intros [= <-]. unfold cell_number. simpl.
    rewrite length_init in *. nia.
Qed.

Lemma balanced_init (n : Z) : 1 ≤ n → balanced (init n).
Proof.
  intros Hn. unfold balanced. rewrite inversions_ascending.
  - change (vacant (init n)) with (n - 1, n - 1). simpl.
    Z.to_euclidean_division_equations. lia.
  - intros i j x y Hij Hx%arrangement_init Hy%arrangement_init; lia.
Qed.

Lemma balanced_reachable (n : Z) s : 1 ≤ n → reachable n s → balanced s.
Proof.
  intros Hn. induction 1 as [|s b s' Hs IH Hm|s d s' Hs IH Hr|s s' Hs IH Hr].
  - by apply balanced_init.
  - eapply balanced_move; eauto using reachable_valid.
  - destruct (randomise_inv _ _ _ Hr) as (picks & s1 & _ & Hm & ->).
    apply (balanced_same_board s1); [done|].
    apply (balanced_move_each picks (set_monitor_status false s)); [|done|].
    + apply (valid_ext s); [done..|]. by apply (reachable_valid n).
    + by apply (balanced_same_board s).
  - destruct (reachable_shape _ _ Hs) as [HN Hlen].
    rewrite reset_fresh in Hr by (by rewrite HN).
    injection Hr as <-. rewrite HN.
    by apply (balanced_same_board (init n)), balanced_init.
Qed.

Lemma exchange_arrangement_odd s (i j : nat) (p q : pos) :
  valid s → (i < j)%nat →
  buttons s !! i = Some p → buttons s !! j = Some q →
  ∃ k, (inversions (arrangement s)
        + inversions
            ((cell_number (N s) <$> <[i := q]> (<[j := p]> (buttons s)))
             ++ [cell_number (N s) (vacant s)])
        = 2 * k + 1)%nat.
Proof.
  intros Hs Hij Hi Hj. pose proof (NoDup_arrangement s Hs) as Hnd.
  unfold arrangement in *.
  destruct (split_two _ _ _ _ _ Hij Hi Hj) as (a & m & c & E & ->).
  rewrite E in *.
  rewrite !fmap_app, !fmap_cons, !fmap_app, !fmap_cons, <- !app_assoc in *.
  simpl in *. rewrite <- !app_assoc in *. simpl in *.
  destruct (NoDup_two _ _ _ _ _ Hnd) as (Hxy & Hx & Hy).
  by apply transposition_odd.
Qed.

Lemma exchanged_vacant s t (i j : nat) (p q : pos) :
  valid s → valid t → N t = N s → i ≠ j →
  buttons s !! i = Some p → buttons s !! j = Some q →
  buttons t = <[i := q]> (<[j := p]> (buttons s)) →
  vacant t = vacant s.
Proof.
  intros Hs Ht HN Hij Hi Hj Hb.
  destruct (decide (vacant s = vacant t)) as [|Hne]; [done|].
  destruct (valid_full t Ht (vacant s)) as [k Hk]; [|done|].
  { rewrite HN. by apply valid_vacant. }
  exfalso. rewrite Hb in Hk.
  assert (Hli : (i < length (buttons s))%nat)
    by (apply lookup_lt_is_Some; eauto).
  assert (Hlj : (j < length (buttons s))%nat)
    by (apply lookup_lt_is_Some; eauto).
  destruct (decide (k = i)) as [->|Hki].
  - rewrite list_lookup_insert_eq in Hk by (by rewrite length_insert).
    injection Hk as ->. by apply (valid_free s Hs j).
  - rewrite list_lookup_insert_ne in Hk by done.
    destruct (decide (k = j)) as [->|Hkj].
    + rewrite list_lookup_insert_eq in Hk by done.
      injection Hk as ->. by apply (valid_free s Hs i).
    + rewrite list_lookup_insert_ne in Hk by done.
      by apply (valid_free s Hs k).
Qed.

Lemma exchange_unbalanced s t (i j : nat) (p q : pos) :
  valid s → valid t → N t = N s → (i < j)%nat →
  buttons s !! i = Some p → buttons s !! j = Some q →
  buttons t = <[i := q]> (<[j := p]> (buttons s)) →
  balanced s → ¬ balanced t.
Proof.
  intros Hs Ht HN Hij Hi Hj Hb Hbs Hbt.
  assert (Hv : vacant t = vacant s)
    by (eapply (exchanged_vacant s t i j); eauto with lia).
  destruct (exchange_arrangement_odd s i j p q Hs Hij Hi Hj) as [k Hk].
  unfold balanced in *. unfold arrangement at 1 in Hbt.
  rewrite HN, Hb, Hv in Hbt.
  Z.to_euclidean_division_equations. lia.
Qed.

(** The parity invariant of the sliding puzzle: list the cell numbers
    of tiles 0, 1, ... and then of the vacant cell; in every reachable
    state the number of inversions of that list plus the row and the
    column of the vacant cell is even. *)
Theorem parity_invariant (n : Z) (s : puzzle) :
  1 ≤ n → reachable n s →
  (Z.of_nat (inversions (arrangement s)) + (vacant s).1 + (vacant s).2)
    `mod` 2 = 0.
Proof. apply balanced_reachable. Qed.

Lemma parity_invariant_witness :
  1 ≤ 3 ∧ reachable 3 shuffled_once
  ∧ (Z.of_nat (inversions (arrangement shuffled_once))
     + (vacant shuffled_once).1 + (vacant shuffled_once).2) `mod` 2 = 0.
Proof.
  split; [lia|]. split; [apply reachable_shuffled_once|].
  apply (parity_invariant 3 shuffled_once);
    [lia | apply reachable_shuffled_once].
Defined.

(** The game never exchanges two tiles: if a placement can be reached,
    the placement that differs from it by two tiles having changed
    places cannot be reached, by any clicks, Start or Reset. *)
Theorem no_two_tiles_exchanged (n : Z) (s t : puzzle) (i j : nat)
    (p q : pos) :
  1 ≤ n → reachable n s → reachable n t → i ≠ j →
  buttons s !! i = Some p → buttons s !! j = Some q →
  buttons t ≠ <[i := q]> (<[j := p]> (buttons s)).
Proof.
  intros Hn Hrs Hrt Hij Hi Hj Hb.
  pose proof (reachable_valid n s Hn Hrs) as Hs.
  pose proof (reachable_valid n t Hn Hrt) as Ht.
  destruct (reachable_shape n s Hrs) as [HNs _].
  destruct (reachable_shape n t Hrt) as [HNt _].
  pose proof (balanced_reachable n s Hn Hrs) as Hbs.
  pose proof (balanced_reachable n t Hn Hrt) as Hbt.
  destruct (decide (i < j)%nat) as [Hlt|Hge].
  - apply (exchange_unbalanced s t i j p q); auto. congruence.
  - rewrite list_insert_insert_ne in Hb by done.
    apply (exchange_unbalanced s t j i q p); auto; [congruence | lia].
Qed.

Lemma no_two_tiles_exchanged_witness :
  1 ≤ 3 ∧ reachable 3 (init 3) ∧ reachable 3 shuffled_once
  ∧ buttons shuffled_once
    ≠ <[0%nat := (0, 1)]> (<[1%nat := (0, 0)]> (buttons (init 3))).
Proof.
  split; [lia|]. split; [constructor|].
  split; [apply reachable_shuffled_once|].
  apply (no_two_tiles_exchanged 3 (init 3) shuffled_once 0 1 (0, 0) (0, 1));
    [lia | constructor | apply reachable_shuffled_once | lia
    | reflexivity | reflexivity].
Defined.

(** ** Tile files *)

Lemma length_append (a b : string) :
  String.length (a +:+ b) = (String.length a + String.length b)%nat.
Proof. induction a as [|c a IH]; simpl; [done|]. by rewrite IH. Qed.

Lemma append_inj_r (a b t : string) : a +:+ t = b +:+ t → a = b.
Proof.
  revert b. induction a as [|c a IH]; intros [|d b] E; simpl in *.
  - done.
  - apply (f_equal String.length) in E.
    rewrite !length_append in E. simpl in E. lia.
  - apply (f_equal String.length) in E.
    rewrite !length_append in E. simpl in E. lia.
  - injection E as -> E. f_equal. by apply IH.
Qed.

Lemma digit_value_pretty (d : BinNums.N) :
  (d < 10)%N → digit_value (pretty_N_char d) = d.
Proof.
  intros Hd.
  assert (d = 0 ∨ d = 1 ∨ d = 2 ∨ d = 3 ∨ d = 4 ∨ d = 5 ∨ d = 6
          ∨ d = 7 ∨ d = 8 ∨ d = 9)%N as Hcases by lia.
  repeat (destruct Hcases as [->|Hcases]; [done|]). by subst.
Qed.

Lemma digits_value_go (x : BinNums.N) (s : string) :
  digits_value (pretty_N_go x s)
  = (x * 10 ^ N.of_nat (String.length s) + digits_value s)%N.
Proof.
  revert s. induction (N.lt_wf_0 x) as [x _ IH]; intros s.
  destruct (decide (x = 0)%N) as [->|Hx].
  - rewrite pretty_N_go_0. lia.
  - rewrite pretty_N_go_step by lia.
    rewrite IH by (apply N.div_lt; lia). simpl digits_value.
    rewrite digit_value_pretty by (apply N.mod_lt; lia).
    simpl String.length. rewrite Nat2N.inj_succ, N.pow_succ_r'.
    pose proof (N.div_mod' x 10). nia.
Qed.

Lemma digits_value_pretty (i : nat) : digits_value (pretty i) = N.of_nat i.
Proof.
  unfold pretty, pretty_nat, pretty, pretty_N. case_decide as Hz.
  - by rewrite Hz.
  - rewrite digits_value_go. simpl. lia.
Qed.

Lemma digits_value_zeros (k : nat) (s : string) :
  digits_value (zeros k +:+ s) = digits_value s.
Proof.
  induction k as [|k IH]; simpl; [done|]. rewrite IH.
  change (digit_value "0") with 0%N. lia.
Qed.

Lemma tile_file_inj (i j : nat) : tile_file i = tile_file j → i = j.
Proof.
  unfold tile_file. intros E.
  apply (inj (String.app "img")), append_inj_r in E.
  apply (f_equal digits_value) in E. unfold zero_fill in E.
  rewrite !digits_value_zeros, !digits_value_pretty in E. lia.
Qed.

Lemma lookup_loaded_files (n : Z) (i : nat) (name : string) :
  loaded_files n !! i = Some name ↔
  (i < length (buttons (init n)))%nat ∧ name = tile_file i.
Proof.
  unfold loaded_files. rewrite list_lookup_imap.
  change (but_last (product (range n) (range n))) with (buttons (init n)).
  split.
  - intros H. destruct (buttons (init n) !! i) as [p|] eqn:Hp; [|done].
    injection H as <-. split; [|done]. apply lookup_lt_is_Some. eauto.
  - intros [Hi ->]. by destruct (lookup_lt_is_Some_2 _ _ Hi) as [p ->].
Qed.

(** No two tiles share a file: the file names [img000.png],
    [img001.png], ... of different tile numbers differ, also beyond
    [img999.png] where the number takes more than three digits. *)
Theorem tile_files_distinct (i j : nat) :
  i ≠ j → tile_file i ≠ tile_file j.
Proof. intros Hij E. by apply Hij, tile_file_inj. Qed.

Lemma tile_files_distinct_witness :
  7%nat ≠ 1007%nat ∧ tile_file 7 ≠ tile_file 1007.
Proof. split; [lia|]. apply (tile_files_distinct 7 1007). lia. Defined.

Lemma length_loaded_files (n : Z) :
  0 ≤ n → length (loaded_files n) = Z.to_nat (n * n - 1).
Proof.
  intros Hn. unfold loaded_files. rewrite length_imap.
  change (but_last (product (range n) (range n))) with (buttons (init n)).
  by apply length_init_Z.
Qed.

Lemma checked_loaded (n : Z) : 0 ≤ n → checked_files n = loaded_files n.
Proof.
  intros Hn. apply list_eq. intros i. unfold checked_files, range.
  rewrite list_lookup_fmap.
  destruct (decide (Z.of_nat i < n ^ 2 - 1)) as [Hi|Hi].
  - rewrite lookup_seqZ_lt by done. simpl.
    replace (Z.to_nat (0 + Z.of_nat i)) with i by lia.
    symmetry. apply lookup_loaded_files. split; [|done].
    rewrite length_init_Z by done. lia.
  - rewrite lookup_seqZ_ge by lia. simpl. symmetry.
    apply lookup_ge_None_2. rewrite length_loaded_files by done. lia.
Qed.

Lemma written_names (shape0 shape1 n : Z) :
  (written_tiles shape0 shape1 n).*1 = loaded_files n.
Proof.
  unfold written_tiles, loaded_files. apply list_eq. intros i.
  rewrite list_lookup_fmap, !list_lookup_imap.
  by destruct (but_last (product (range n) (range n)) !! i).
Qed.

Lemma NoDup_loaded_files (n : Z) : NoDup (loaded_files n).
Proof.
  apply NoDup_alt. intros i j name.
  intros [_ ->]%lookup_loaded_files [_ E]%lookup_loaded_files.
  by apply tile_file_inj.
Qed.

(** ** The crops *)

Lemma lookup_written_tiles (shape0 shape1 n : Z) (k : nat)
    (name : string) (box : crop) :
  written_tiles shape0 shape1 n !! k = Some (name, box) →
  0 < n ∧ Z.of_nat k < n * n - 1
  ∧ name = tile_file k
  ∧ box = img_crop shape0 shape1 n (home n k).1 (home n k).2.
Proof.
  unfold written_tiles. rewrite list_lookup_imap.
  change (but_last (product (range n) (range n))) with (buttons (init n)).
  destruct (buttons (init n) !! k) as [p|] eqn:Hp; [|done].
  apply lookup_init in Hp as (Hk & Hn & ->). by intros [= <- <-].
Qed.

(** The crop written for tile [k] is cut at the cell where button [k]
    is first placed, row [k div n] and column [k mod n]; it lies inside
    the image and is [shape0 div n] rows by [shape1 div n] columns. *)
Theorem crop_inside_image (shape0 shape1 n : Z) (k : nat)
    (name : string) (box : crop) :
  0 ≤ shape0 → 0 ≤ shape1 →
  written_tiles shape0 shape1 n !! k = Some (name, box) →
  buttons (init n) !! k = Some (home n k)
  ∧ box = img_crop shape0 shape1 n (Z.of_nat k `div` n) (Z.of_nat k `mod` n)
  ∧ 0 ≤ row_from box ∧ row_to box ≤ shape0
  ∧ row_to box - row_from box = shape0 `div` n
  ∧ 0 ≤ col_from box ∧ col_to box ≤ shape1
  ∧ col_to box - col_from box = shape1 `div` n.
Proof.
  intros Hh Hw (Hn & Hk & -> & ->)%lookup_written_tiles.
  split; [by apply lookup_init|]. split; [done|].
  destruct (home_in_grid n k Hn ltac:(lia)) as [Hr Hc].
  unfold home in *. simpl in *.
  pose proof (Z.mul_div_le shape0 n Hn).
  pose proof (Z.mul_div_le shape1 n Hn).
  assert (0 ≤ shape0 `div` n) by (apply Z.div_pos; lia).
  assert (0 ≤ shape1 `div` n) by (apply Z.div_pos; lia).
  repeat split; nia.
Qed.

Lemma crop_inside_image_witness :
  0 ≤ 600 ∧ 0 ≤ 400
  ∧ written_tiles 600 400 3 !! 7%nat
    = Some ("img007.png", Crop 400 600 133 266)
  ∧ Crop 400 600 133 266 = img_crop 600 400 3 (7 `div` 3) (7 `mod` 3)
  ∧ row_to (Crop 400 600 133 266) ≤ 600
  ∧ col_to (Crop 400 600 133 266) ≤ 400.
Proof.
  split; [lia|]. split; [lia|]. split; [vm_compute; reflexivity|].
  destruct (crop_inside_image 600 400 3 7 "img007.png"
              (Crop 400 600 133 266))
    as (_ & Hbox & _ & Hr & _ & _ & Hc & _);
    [lia | lia | vm_compute; reflexivity |].
  split; [exact Hbox|]. split; [exact Hr | exact Hc].
Defined.

(** The crops of different tiles do not overlap: a pixel lies in the
    crop of at most one tile. *)
Theorem crops_disjoint (shape0 shape1 n : Z) (k k' : nat)
    (name name' : string) (box box' : crop) (y x : Z) :
  written_tiles shape0 shape1 n !! k = Some (name, box) →
  written_tiles shape0 shape1 n !! k' = Some (name', box') →
  in_crop box y x → in_crop box' y x → k = k'.
Proof.
  intros (Hn & Hk & _ & ->)%lookup_written_tiles
         (_ & Hk' & _ & ->)%lookup_written_tiles.
  unfold in_crop, img_crop. simpl.
  intros [Hy Hx] [Hy' Hx'].
  apply (home_inj n); [done|]. unfold home. simpl.
  f_equal; nia.
Qed.

Lemma crops_disjoint_witness :
  written_tiles 600 400 3 !! 7%nat
  = Some ("img007.png", Crop 400 600 133 266)
  ∧ in_crop (Crop 400 600 133 266) 450 200
  ∧ 7%nat = 7%nat.
Proof.
  split; [vm_compute; reflexivity|].
  assert (Hin : in_crop (Crop 400 600 133 266) 450 200)
    by (unfold in_crop; simpl; lia).
  split; [exact Hin|].
  apply (crops_disjoint 600 400 3 7 7 "img007.png" "img007.png"
           (Crop 400 600 133 266) (Crop 400 600 133 266) 450 200);
    [vm_compute; reflexivity | vm_compute; reflexivity | exact Hin
    | exact Hin].
Defined.

(** Side by side the resized tiles are never wider than [imsize] and
    fall short of it by less than [n] pixels; they fill it exactly when
    [n] divides [imsize], and a tile has at least one pixel exactly when
    [n] is at most [imsize]. *)
Theorem tiles_fit_imsize (n : Z) :
  0 < n →
  n * tile_side n ≤ imsize < n * tile_side n + n
  ∧ (n * tile_side n = imsize ↔ imsize `mod` n = 0)
  ∧ (1 ≤ tile_side n ↔ n ≤ imsize).
Proof.
  intros Hn. unfold tile_side, imsize.
  pose proof (Z.div_mod 600 n ltac:(lia)).
  pose proof (Z.mod_pos_bound 600 n Hn).
  repeat split; nia.
Qed.

Lemma tiles_fit_imsize_witness :
  0 < 7
  ∧ 7 * tile_side 7 ≤ imsize < 7 * tile_side 7 + 7
  ∧ (7 * tile_side 7 = imsize ↔ imsize `mod` 7 = 0)
  ∧ (1 ≤ tile_side 7 ↔ 7 ≤ imsize).
Proof. split; [lia|]. apply (tiles_fit_imsize 7). lia. Defined.

(** ** The constructor and the launcher *)

Lemma loaded_files_nil (n : Z) :
  loaded_files n = [] ↔ but_last (product (range n) (range n)) = [].
Proof.
  unfold loaded_files.
  by destruct (but_last (product (range n) (range n))).
Qed.

Lemma loaded_files_small (n : Z) : n ≤ 1 → loaded_files n = [].
Proof.
  intros Hn. apply length_zero_iff_nil. unfold loaded_files.
  rewrite length_imap.
  change (but_last (product (range n) (range n))) with (buttons (init n)).
  rewrite length_init. nia.
Qed.

Lemma loaded_files_large (n : Z) : loaded_files n ≠ [] → 2 ≤ n.
Proof.
  intros Hne. destruct (decide (2 ≤ n)) as [|Hn]; [done|].
  destruct Hne. apply loaded_files_small. lia.
Qed.

Lemma open_each_ok (fs : gset string) (names : list string) :
  Forall (λ name, name ∈ fs) names → open_each fs names = (names, None).
Proof.
  induction 1 as [|name names Hin _ IH]; simpl; [done|].
  by rewrite decide_True, IH.
Qed.

Lemma open_each_fail (fs : gset string) (names : list string) :
  ¬ Forall (λ name, name ∈ fs) names →
  (open_each fs names).2 = Some FileNotFoundError.
Proof.
  induction names as [|name names IH]; intros Hno; simpl.
  - by destruct Hno.
  - case_decide as Hin; [|done]. simpl. apply IH.
    intros Hall. apply Hno. by constructor.
Qed.

Lemma open_each_prefix (fs : gset string) (names : list string) :
  (open_each fs names).1 `prefix_of` names
  ∧ Forall (λ name, name ∈ fs) (open_each fs names).1
  ∧ ((open_each fs names).2 ≠ None →
       ∃ name, names !! length (open_each fs names).1 = Some name
               ∧ name ∉ fs).
Proof.
  induction names as [|name names (IH1 & IH2 & IH3)]; simpl.
  - split; [done|]. split; [done|]. by intros [].
  - case_decide as Hin; simpl.
    + split; [by apply prefix_cons|]. split; [by constructor|]. done.
    + split; [apply prefix_nil|]. split; [done|]. intros _. eauto.
Qed.

Lemma load_each_ok (fs : gset string) (names : list string) :
  Forall (λ name, name ∈ fs) names → load_each fs names = None.
Proof.
  induction 1 as [|name names Hin _ IH]; simpl; [done|].
  by rewrite decide_True.
Qed.

Lemma load_each_fail (fs : gset string) (names : list string) :
  ¬ Forall (λ name, name ∈ fs) names → load_each fs names = Some TclError.
Proof.
  induction names as [|name names IH]; intros Hno; simpl.
  - by destruct Hno.
  - case_decide as Hin; [|done]. apply IH.
    intros Hall. apply Hno. by constructor.
Qed.

Lemma slice_whole (r step len : Z) :
  0 ≤ r → 0 ≤ step → (r + 1) * step ≤ len →
  slice_length (r * step) ((r + 1) * step) len = step.
Proof. intros Hr Hs Hlen. unfold slice_length. nia. Qed.

Lemma div_pos_iff (a n : Z) : 0 < n → 0 ≤ a → 0 < a `div` n ↔ n ≤ a.
Proof.
  intros Hn Ha. pose proof (Z.div_mod a n ltac:(lia)).
  pose proof (Z.mod_pos_bound a n Hn). split; nia.
Qed.

Lemma write_tile_written (rows cols : nat) (n : Z) (fs : gset string)
    (tile : string * crop) :
  tile ∈ written_tiles (Z.of_nat rows) (Z.of_nat cols) n →
  write_tile (Z.of_nat rows) (Z.of_nat cols) n fs tile
  = if decide (n ≤ Z.of_nat rows ∧ n ≤ Z.of_nat cols ∧ n ≤ imsize)
    then inr ({[ tile.1 ]} ∪ fs) else inl cv2_error.
Proof.
  intros [k Hk]%list_elem_of_lookup. destruct tile as [name box].
  apply lookup_written_tiles in Hk as (Hn & Hk & -> & ->).
  destruct (home_in_grid n k Hn ltac:(lia)) as [Hr Hc].
  unfold write_tile, img_crop. cbn [fst snd row_from row_to col_from col_to].
  pose proof (Z.mul_div_le (Z.of_nat rows) n Hn).
  pose proof (Z.mul_div_le (Z.of_nat cols) n Hn).
  assert (0 ≤ Z.of_nat rows `div` n) by (apply Z.div_pos; lia).
  assert (0 ≤ Z.of_nat cols `div` n) by (apply Z.div_pos; lia).
  rewrite !slice_whole by nia.
  pose proof (div_pos_iff (Z.of_nat rows) n Hn ltac:(lia)).
  pose proof (div_pos_iff (Z.of_nat cols) n Hn ltac:(lia)).
  pose proof (div_pos_iff imsize n Hn ltac:(done)).
  unfold tile_side. repeat case_decide; try done; tauto.
Qed.

Lemma write_each_ok (shape0 shape1 n : Z) (fs : gset string)
    (tiles : list (string * crop)) :
  (∀ tile fs', tile ∈ tiles →
     write_tile shape0 shape1 n fs' tile = inr ({[ tile.1 ]} ∪ fs')) →
  write_each shape0 shape1 n fs tiles = (list_to_set tiles.*1 ∪ fs, None).
Proof.
  revert fs. induction tiles as [|tile tiles IH]; intros fs Hok; simpl.
  - by rewrite (left_id_L ∅ (∪)).
  - rewrite Hok by (by left). rewrite IH.
    + by rewrite (assoc_L (∪)), (comm_L (∪) _ {[tile.1]}).
    + intros t fs' Ht. apply Hok. by right.
Qed.

Lemma except_block_none (w : world) (image : string) (n : Z) :
  loaded_files n = [] → except_block w image n = (files w, None).
Proof.
  intros Hnil. unfold except_block.
  destruct (imread w image) as [[rows cols]|].
  - assert (Hw : written_tiles (Z.of_nat rows) (Z.of_nat cols) n = []).
    { apply (fmap_nil_inv fst). by rewrite written_names. }
    by rewrite Hw.
  - apply loaded_files_nil in Hnil. by rewrite Hnil.
Qed.

Lemma except_block_some (w : world) (image : string) (n : Z) :
  loaded_files n ≠ [] →
  except_block w image n
  = match imread w image with
    | Some (rows, cols) =>
        if decide (n ≤ Z.of_nat rows ∧ n ≤ Z.of_nat cols ∧ n ≤ imsize)
        then (list_to_set (loaded_files n) ∪ files w, None)
        else (files w, Some cv2_error)
    | None => (files w, Some AttributeError)
    end.
Proof.
  intros Hne. unfold except_block.
  destruct (imread w image) as [[rows cols]|].
  - case_decide as Hfit.
    + rewrite write_each_ok, written_names; [done|].
      intros tile fs' Ht. by rewrite write_tile_written, decide_True.
    + pose proof (written_names (Z.of_nat rows) (Z.of_nat cols) n) as Hw.
      destruct (written_tiles (Z.of_nat rows) (Z.of_nat cols) n)
        as [|tile tiles] eqn:Htiles; [by destruct Hne|].
      simpl. rewrite write_tile_written, decide_False; [done..|].
      rewrite Htiles. by left.
  - destruct (but_last (product (range n) (range n))) eqn:Hcells; [|done].
    destruct Hne. by apply loaded_files_nil.
Qed.

Lemma construct_cached (w : world) (image : string) (n : Z) :
  Forall (λ name, name ∈ files w) (loaded_files n) →
  construct w image n = inr (files w, init n).
Proof.
  intros Hall. unfold construct.
  destruct (decide (loaded_files n = [])) as [Hnil|Hne].
  - assert (Hh : match (open_each (files w) (checked_files n)).2 with
                 | Some FileNotFoundError => except_block w image n
                 | other => (files w, other)
                 end = (files w, None)).
    { destruct (decide (Forall (λ name, name ∈ files w) (checked_files n)))
        as [Hc|Hc].
      - by rewrite open_each_ok.
      - rewrite open_each_fail by done. by apply except_block_none. }
    rewrite Hh. simpl. by rewrite load_each_ok.
  - rewrite checked_loaded by (apply loaded_files_large in Hne; lia).
    rewrite open_each_ok by done. simpl. by rewrite load_each_ok.
Qed.

Lemma construct_uncached (w : world) (image : string) (n : Z) :
  ¬ Forall (λ name, name ∈ files w) (loaded_files n) →
  construct w image n
  = match imread w image with
    | Some (rows, cols) =>
        if decide (n ≤ Z.of_nat rows ∧ n ≤ Z.of_nat cols ∧ n ≤ imsize)
        then inr (list_to_set (loaded_files n) ∪ files w, init n)
        else inl TclError
    | None => inl TclError
    end.
Proof.
  intros Hno.
  assert (Hne : loaded_files n ≠ []) by (intros E; rewrite E in Hno; auto).
  unfold construct.
  rewrite checked_loaded by (apply loaded_files_large in Hne; lia).
  rewrite open_each_fail, except_block_some by done.
  destruct (imread w image) as [[rows cols]|].
  - case_decide; simpl.
    + rewrite load_each_ok; [done|].
      apply Forall_forall. intros name Hname.
      by apply elem_of_union_l, elem_of_list_to_set.
    + by rewrite load_each_fail.
  - simpl. by rewrite load_each_fail.
Qed.

(** Whatever the command line, a board the launcher manages to build
    is the identity board of a size that is at least 3, and it does
    build it on a machine that has the tile files; the board has at
    least 8 tiles, and in every state reached from it neither Start nor
    Reset raises. *)
Theorem launched_board_never_raises (argv1 : main.exn + Z) (s : puzzle)
    (draw : nat → nat) :
  reachable (main.board_size argv1) s →
  (∀ w argv2 fs s0,
     main.main w argv1 argv2 = inr (fs, s0) →
     s0 = init (main.board_size argv1))
  ∧ (∀ w argv2,
       Forall (λ name, name ∈ files w)
              (loaded_files (main.board_size argv1)) →
       main.main w argv1 argv2
       = inr (files w, init (main.board_size argv1)))
  ∧ (8 ≤ length (buttons s))%nat
  ∧ is_Some (randomise draw s)
  ∧ is_Some (reset s).
Proof.
  intros Hr. split; [intros w argv2 fs s0; apply construct_inr|].
  split; [intros w argv2; apply construct_cached|].
  assert (Hn : 3 ≤ main.board_size argv1).
  { unfold main.board_size, main.read_N.
    destruct argv1 as [[]|m]; try lia. case_bool_decide; lia. }
  destruct (reachable_shape _ s Hr) as [HN Hlen].
  split; [rewrite Hlen, length_init; nia|].
  split; [apply (randomise_reachable_Some _ s draw Hr); lia|].
  rewrite reset_fresh by (by rewrite HN). by eexists.
Qed.

Lemma launched_board_never_raises_witness :
  reachable (main.board_size (inr 2)) shuffled_once
  ∧ (8 ≤ length (buttons shuffled_once))%nat
  ∧ is_Some (randomise seven_first shuffled_once)
  ∧ is_Some (reset shuffled_once).
Proof.
  split; [apply reachable_shuffled_once|].
  apply (launched_board_never_raises (inr 2) shuffled_once seven_first).
  apply reachable_shuffled_once.
Defined.



(** For a board size that is not negative the [try] block goes through
    the names the [finally] block loads, in the same order, and opens
    them up to the first one that is missing.  Whenever the constructor
    returns, all [n * n - 1] tile files exist, no name is loaded twice
    and the files that were there before are still there: a complete
    set of tile files is left as it is, an incomplete one is completed
    with all the tile files. *)
Theorem tile_files_consistent (w : world) (image : string) (n : Z)
    (fs : gset string) (s : puzzle) :
  0 ≤ n → construct w image n = inr (fs, s) →
  checked_files n = loaded_files n
  ∧ (open_each (files w) (checked_files n)).1 `prefix_of` checked_files n
  ∧ Forall (λ name, name ∈ files w)
           (open_each (files w) (checked_files n)).1
  ∧ ((open_each (files w) (checked_files n)).2 = None
     ↔ Forall (λ name, name ∈ files w) (checked_files n))
  ∧ ((open_each (files w) (checked_files n)).2 ≠ None →
       ∃ name,
         checked_files n
           !! length (open_each (files w) (checked_files n)).1 = Some name
         ∧ name ∉ files w)
  ∧ length (loaded_files n) = Z.to_nat (n * n - 1)
  ∧ NoDup (loaded_files n)
  ∧ Forall (λ name, name ∈ fs) (loaded_files n)
  ∧ files w ⊆ fs
  ∧ (Forall (λ name, name ∈ files w) (loaded_files n) → fs = files w)
  ∧ (¬ Forall (λ name, name ∈ files w) (loaded_files n) →
       fs = list_to_set (loaded_files n) ∪ files w).
Proof.
  intros Hn Hc.
  destruct (open_each_prefix (files w) (checked_files n)) as (Hp1 & Hp2 & Hp3).
  split; [by apply checked_loaded|]. do 2 (split; [done|]). split.
  { split.
    - intros Hnone.
      destruct (decide (Forall (λ name, name ∈ files w) (checked_files n)))
        as [|Hno]; [done|].
      rewrite open_each_fail in Hnone by done. done.
    - intros Hall. by rewrite open_each_ok. }
  split; [done|]. split; [by apply length_loaded_files|].
  split; [apply NoDup_loaded_files|].
  destruct (decide (Forall (λ name, name ∈ files w) (loaded_files n)))
    as [Hall|Hno].
  - rewrite construct_cached in Hc by done. injection Hc as <- _.
    do 3 (split; [done|]). done.
  - rewrite construct_uncached in Hc by done.
    destruct (imread w image) as [[rows cols]|]; [|done].
    case_decide; [|done]. injection Hc as <- _.
    split; [|split; [apply union_subseteq_r | done]].
    apply Forall_forall. intros name Hname.
    by apply elem_of_union_l, elem_of_list_to_set.
Qed.

Lemma tile_files_consistent_witness :
  0 ≤ 3
  ∧ construct picture_on_disk "crysis2.png" 3
    = inr (list_to_set (loaded_files 3) ∪ files picture_on_disk, init 3)
  ∧ Forall (λ name, name ∈ list_to_set (loaded_files 3)
                           ∪ files picture_on_disk) (loaded_files 3)
  ∧ files picture_on_disk
    ⊆ list_to_set (loaded_files 3) ∪ files picture_on_disk.
Proof.
  assert (Hc : construct picture_on_disk "crysis2.png" 3
               = inr (list_to_set (loaded_files 3) ∪ files picture_on_disk,
                      init 3)).
  { rewrite construct_uncached.
    - change (imread picture_on_disk "crysis2.png")
        with (Some (600%nat, 400%nat)).
      cbv iota beta. rewrite decide_True; [done|]. unfold imsize. lia.
    - intros Hall. apply Forall_inv in Hall.
      by apply not_elem_of_empty in Hall. }
  split; [lia|]. split; [exact Hc|].
  destruct (tile_files_consistent picture_on_disk "crysis2.png" 3 _ _
              ltac:(lia) Hc)
    as (_ & _ & _ & _ & _ & _ & _ & Hall & Hsub & _).
  split; [exact Hall | exact Hsub].
Defined.

Example tile_file_7 :
  tile_file 7 = "img007.png" ∧ tile_file 42 = "img042.png"
  ∧ tile_file 1007 = "img1007.png".
Proof. vm_compute. done. Qed.

Example init_3 :
  buttons (init 3) = [(0,0);(0,1);(0,2);(1,0);(1,1);(1,2);(2,0);(2,1)]
  ∧ vacant (init 3) = (2, 2).
Proof. vm_compute. done. Qed.

Example move_7 :
  buttons <$> move (init 3) 7 = Some [(0,0);(0,1);(0,2);(1,0);(1,1);(1,2);(2,0);(2,2)].
Proof. vm_compute. done. Qed.

Example text_12 : moves_text 12 = "moves: 12".
Proof. vm_compute. done. Qed.
